(** * The G-code command queue of Marlin (Marlin/src/gcode/queue.h)

    A shallow embedding of [class GCodeQueue]: the per-port serial states,
    the ring buffer of command lines, the two command injectors, and the
    inline member functions that queue.h defines.  Member functions that
    queue.h only declares ([commit_command], [enqueue]) and the [pop] step
    of the main loop are modelled from the written specification and are
    marked as such. *)

From Stdlib Require Import ZArith Lia Bool.
From Stdlib Require Import Strings.Byte.
From stdpp Require Import base tactics option list.

Local Open Scope Z_scope.

(** ** Configuration constants

    [BUFSIZE], [MAX_CMD_SIZE], [NUM_SERIAL] and the feature flag
    [HAS_MULTI_SERIAL] come from MarlinConfig.h, which queue.h includes.
    They are plain [int] macro constants, so they are integers here. *)

Class MarlinConfig := {
  BUFSIZE : Z;
  MAX_CMD_SIZE : Z;
  NUM_SERIAL : Z;
  HAS_MULTI_SERIAL : bool
}.

(** ** Machine integers

    [uint8_t] values are integers in [0, 256); storing an [int] into a
    [uint8_t] keeps the low eight bits. *)

Definition to_uint8 (z : Z) : Z := z mod 256.

Definition is_uint8 (z : Z) : Prop := 0 <= z < 256.

(** ** C arrays

    An array is a list; an index is a C integer.  Reading or writing
    outside the array is undefined behaviour in C and is [None] here. *)

Definition array_get {A} (a : list A) (i : Z) : option A :=
  if decide (0 <= i) then a !! Z.to_nat i else None.

Definition array_set {A} (a : list A) (i : Z) (x : A) : option (list A) :=
  if decide (0 <= i < Z.of_nat (length a)) then Some (<[Z.to_nat i := x]> a)
  else None.

(** ** C strings

    A [char] is a byte.  A [char*] argument is modelled by the bytes of the
    object it points into, from the pointer onwards; the string it denotes
    ends before the first NUL. *)

Module CString.

Definition NUL : byte := x00.

Definition is_nul (c : byte) : bool := Byte.eqb c NUL.

(** The characters of the string stored in [s]: everything before the
    first NUL. *)
Fixpoint chars (s : list byte) : list byte :=
  match s with
  | [] => []
  | c :: s' => if is_nul c then [] else c :: chars s'
  end.

Definition strlen (s : list byte) : nat := length (chars s).

(** [s] holds a NUL-terminated string: some byte of it is NUL. *)
Definition terminated (s : list byte) : Prop := NUL ∈ s.

(** The [n] bytes that [strncpy(dest, src, n)] stores: the characters of
    [src] up to its NUL, then NULs until [n] bytes have been written; no
    NUL is appended when [src] has [n] or more characters.  Running off
    the end of the source object before either happens is undefined. *)
Fixpoint strncpy_bytes (src : list byte) (n : nat) {struct n}
  : option (list byte) :=
  match n with
  | O => Some []
  | S n' =>
      match src with
      | [] => None
      | c :: src' =>
          if is_nul c then Some (replicate (S n') NUL)
          else cs ← strncpy_bytes src' n'; Some (c :: cs)
      end
  end.

(** [strncpy(dest, src, n)]: the first [n] bytes of [dest] are replaced,
    the rest is untouched; [dest] must have room for [n] bytes. *)
Definition strncpy (dest src : list byte) (n : nat) : option (list byte) :=
  if decide (n <= length dest)%nat
  then bs ← strncpy_bytes src n; Some (bs ++ drop n dest)
  else None.

End CString.

(** ** Member functions as state transformers

    A non-const member function is a function from the object's state to
    an optional result and new state; [None] is undefined behaviour. *)

Definition M (S A : Type) : Type := S -> option (A * S).

Module M.
Section ops.
Context {S : Type}.

Definition ret {A} (x : A) : M S A := fun s => Some (x, s).

Definition bind {A B} (m : M S A) (k : A -> M S B) : M S B :=
  fun s => match m s with
           | Some (x, s') => k x s'
           | None => None
           end.

Definition get : M S S := fun s => Some (s, s).

Definition put (s' : S) : M S unit := fun _ => Some (tt, s').

Definition undefined {A} : M S A := fun _ => None.

(** Lift an optional value: [None] is undefined behaviour. *)
Definition defined {A} (o : option A) : M S A :=
  fun s => match o with Some x => Some (x, s) | None => None end.

(** The state after running [m], when it is defined. *)
Definition exec {A} (m : M S A) (s : S) : option S := snd <$> m s.
End ops.
End M.

#[export] Instance M_ret {S} : MRet (M S) := @M.ret S.
#[export] Instance M_bind {S} : MBind (M S) := fun A B k m => M.bind m k.

(** ** Data model (queue.h:36-72) *)

Module SerialState.
Record t := mk {
  last_N : Z;               (* long *)
  count : Z;                (* int *)
  line_buffer : list byte;  (* char[MAX_CMD_SIZE] *)
  input_state : Z           (* uint8_t *)
}.

Definition set_last_N (n : Z) (st : t) : t :=
  mk n (count st) (line_buffer st) (input_state st).
End SerialState.

Module CommandLine.
(** [port] exists in the C++ struct only under [HAS_MULTI_SERIAL]; without
    the flag no member function of queue.h reads it. *)
Record t := mk {
  buffer : list byte;       (* char[MAX_CMD_SIZE] *)
  skip_ok : bool;
  port : Z                  (* serial_index_t *)
}.

Definition set_buffer (b : list byte) (c : t) : t := mk b (skip_ok c) (port c).
Definition set_skip_ok (k : bool) (c : t) : t := mk (buffer c) k (port c).
Definition set_port (p : Z) (c : t) : t := mk (buffer c) (skip_ok c) p.
End CommandLine.

Module RingBuffer.

Record t := mk {
  length : Z;                       (* uint8_t *)
  index_r : Z;                      (* uint8_t *)
  index_w : Z;                      (* uint8_t *)
  commands : list CommandLine.t     (* CommandLine[BUFSIZE] *)
}.

Definition set_commands (cs : list CommandLine.t) (rb : t) : t :=
  mk (length rb) (index_r rb) (index_w rb) cs.

(** The [uint8_t] members, as targets of the reference parameter of
    [advance_pos]. *)
Inductive member := Length | IndexR | IndexW.

Definition load (p : member) (rb : t) : Z :=
  match p with
  | Length => length rb
  | IndexR => index_r rb
  | IndexW => index_w rb
  end.

Definition store (p : member) (v : Z) (rb : t) : t :=
  match p with
  | Length => mk v (index_r rb) (index_w rb) (commands rb)
  | IndexR => mk (length rb) v (index_w rb) (commands rb)
  | IndexW => mk (length rb) (index_r rb) v (commands rb)
  end.

Section methods.
Context `{MarlinConfig}.

(** [serial_index_t command_port() const
      { return TERN0(HAS_MULTI_SERIAL, commands[index_r].port); }] *)
Definition command_port (rb : t) : option Z :=
  if HAS_MULTI_SERIAL
  then CommandLine.port <$> array_get (commands rb) (index_r rb)
  else Some 0.

(** [void clear() { length = index_r = index_w = 0; }] *)
Definition clear (rb : t) : t :=
  let rb := store IndexW 0 rb in
  let rb := store IndexR (index_w rb) rb in
  store Length (index_r rb) rb.

(** [void advance_pos(uint8_t &p, const int inc)
      { if (++p >= BUFSIZE) p = 0; length += inc; }]
    [++p] wraps at 256, the comparison is made on [int], and
    [length += inc] is computed on [int] and stored back as [uint8_t]. *)
Definition advance_pos (p : member) (inc : Z) (rb : t) : t :=
  let rb := store p (to_uint8 (load p rb + 1)) rb in
  let rb := if decide (load p rb >= BUFSIZE) then store p 0 rb else rb in
  store Length (to_uint8 (length rb + inc)) rb.

(** [bool full(uint8_t cmdCount=1) const
      { return length > (BUFSIZE - cmdCount); }]
    The argument is converted to [uint8_t] on entry.  Both operands are then
    promoted to [int], so the subtraction does not wrap. *)
Definition full (cmdCount : Z) (rb : t) : bool :=
  let cmdCount := to_uint8 cmdCount in
  bool_decide (length rb > BUFSIZE - cmdCount).

(** The default argument of [full]. *)
Definition full_default : t -> bool := full 1.

(** [bool occupied() const { return length != 0; }] *)
Definition occupied (rb : t) : bool := bool_decide (length rb <> 0).

(** [bool empty() const { return !occupied(); }] *)
Definition empty (rb : t) : bool := negb (occupied rb).

(** [CommandLine& peek_next_command() { return commands[index_r]; }] *)
Definition peek_next_command : M t CommandLine.t :=
  rb ← M.get; M.defined (array_get (commands rb) (index_r rb)).

(** [char* peek_next_command_string()
      { return peek_next_command().buffer; }] *)
Definition peek_next_command_string : M t (list byte) :=
  c ← peek_next_command; mret (CommandLine.buffer c).

End methods.

(** *** Member functions that queue.h declares but does not define *)

Section declared_only.
Context `{MarlinConfig}.

(** Modelled from the spec: the body of [commit_command] (queue.h:80-84
    declares it only).  Section 4.1, enqueue: "record the tag fields,
    advance write_index modulo BUFSIZE, increment length".  The tag
    fields go into slot [index_w]; the advance and the increment are
    [advance_pos(index_w, 1)]. *)
Definition commit_command (skip_ok : bool) (serial_ind : Z) : M t unit :=
  rb ← M.get;
  c ← M.defined (array_get (commands rb) (index_w rb));
  cs ← M.defined (array_set (commands rb) (index_w rb)
                    (CommandLine.set_port serial_ind
                       (CommandLine.set_skip_ok skip_ok c)));
  M.put (advance_pos IndexW 1 (set_commands cs rb)).

(** Modelled from the spec: the bytes of a command buffer after "copy
    cmd (truncated to MAX_CMD_SIZE-1, NUL-terminated)" into it.  Bytes
    behind the terminator keep their old values.  A buffer that cannot
    hold the copy is outside the model. *)
Definition copy_truncated (dest cmd : list byte) : option (list byte) :=
  let s := take (Z.to_nat (MAX_CMD_SIZE - 1)) (CString.chars cmd) in
  if decide (List.length s < List.length dest)%nat
  then Some (s ++ CString.NUL :: drop (S (List.length s)) dest)
  else None.

(** Modelled from the spec: the body of [enqueue] (queue.h:86-90 declares
    it only).  Section 4.1: "if length == BUFSIZE return false; else
    copy cmd (truncated to MAX_CMD_SIZE-1, NUL-terminated) into slot
    write_index, record the tag fields, advance write_index modulo
    BUFSIZE, increment length, return true." *)
Definition enqueue (cmd : list byte) (skip_ok : bool) (serial_ind : Z)
  : M t bool :=
  rb ← M.get;
  if decide (length rb = BUFSIZE) then mret false
  else
    c ← M.defined (array_get (commands rb) (index_w rb));
    b ← M.defined (copy_truncated (CommandLine.buffer c) cmd);
    cs ← M.defined (array_set (commands rb) (index_w rb)
                      (CommandLine.set_buffer b c));
    M.put (set_commands cs rb);;
    commit_command skip_ok serial_ind;;
    mret true.

(** Modelled from the spec: [pop], which queue.h does not declare.
    Section 4.1: "precondition length > 0. Advances read_index modulo
    BUFSIZE and decrements length", that is [advance_pos(index_r, -1)].
    A call that breaks the precondition is outside the model. *)
Definition pop : M t unit :=
  rb ← M.get;
  if decide (length rb > 0) then M.put (advance_pos IndexR (-1) rb)
  else M.undefined.

(** Sequences of ring operations. *)
Inductive op :=
| Enqueue (cmd : list byte) (skip_ok : bool) (serial_ind : Z)
| Pop.

Definition step (o : op) : M t unit :=
  match o with
  | Enqueue cmd skip_ok serial_ind =>
      enqueue cmd skip_ok serial_ind;; mret tt
  | Pop => pop
  end.

Fixpoint run (ops : list op) : M t unit :=
  match ops with
  | [] => mret tt
  | o :: ops' => step o;; run ops'
  end.

End declared_only.

(** *** Invariants of the ring (spec section 3) *)

Section invariants.
Context `{MarlinConfig}.

(** "[0 ≤ length ≤ BUFSIZE];
     [(read_index + length) mod BUFSIZE == write_index]". *)
Definition integrity (rb : t) : Prop :=
  (index_r rb + length rb) mod BUFSIZE = index_w rb
  /\ 0 <= length rb <= BUFSIZE.

(** [integrity], with the read index inside the array. *)
Definition in_range (rb : t) : Prop :=
  0 <= index_r rb < BUFSIZE /\ integrity rb.

(** A well-formed ring: [in_range], and the array has its declared
    size. *)
Definition wf (rb : t) : Prop :=
  in_range rb /\ Z.of_nat (List.length (commands rb)) = BUFSIZE.

(** Every slot's buffer has its declared size, [MAX_CMD_SIZE]. *)
Definition sized (rb : t) : Prop :=
  Forall (fun c => Z.of_nat (List.length (CommandLine.buffer c)) = MAX_CMD_SIZE)
    (commands rb).

(** The slot [i] places behind the read position. *)
Definition slot_at (rb : t) (i : Z) : option CommandLine.t :=
  array_get (commands rb) ((index_r rb + i) mod BUFSIZE).

(** The slots [index_r, index_r + length) modulo [BUFSIZE], in that order:
    "the valid commands in arrival order". *)
Definition queued (rb : t) : list (option CommandLine.t) :=
  slot_at rb <$> seqZ 0 (length rb).

(** What a queued command carries: its string and its two tags. *)
Definition entry : Type := list byte * bool * Z.

Definition entry_of (c : CommandLine.t) : entry :=
  (CString.chars (CommandLine.buffer c), CommandLine.skip_ok c,
   CommandLine.port c).

Definition entries (rb : t) : list entry := omap (fmap entry_of) (queued rb).

(** The bounded FIFO of spec sections 3 and 4.1, as a list with the oldest
    entry first: [enqueue] appends unless [BUFSIZE] entries are queued,
    [pop] removes the oldest entry and needs one. *)
Definition fifo_step (o : op) (l : list entry) : option (list entry) :=
  match o with
  | Enqueue cmd skip_ok serial_ind =>
      if decide (Z.of_nat (List.length l) = BUFSIZE) then Some l
      else Some (l ++ [(take (Z.to_nat (MAX_CMD_SIZE - 1)) (CString.chars cmd),
                        skip_ok, serial_ind)])
  | Pop => match l with [] => None | _ :: l' => Some l' end
  end.

Fixpoint fifo_run (ops : list op) (l : list entry) : option (list entry) :=
  match ops with
  | [] => Some l
  | o :: ops' => l' ← fifo_step o l; fifo_run ops' l'
  end.

End invariants.
End RingBuffer.

(** ** The queue object (queue.h:31-225): its static data members *)

Module GCodeQueue.

Record t := mk {
  serial_state : list SerialState.t;         (* SerialState[NUM_SERIAL] *)
  ring_buffer : RingBuffer.t;
  injected_commands_P : option (list byte);  (* PGM_P; None is nullptr *)
  injected_commands : list byte              (* char[64] *)
}.

Definition set_serial_state (ss : list SerialState.t) (q : t) : t :=
  mk ss (ring_buffer q) (injected_commands_P q) (injected_commands q).
Definition set_ring_buffer (rb : RingBuffer.t) (q : t) : t :=
  mk (serial_state q) rb (injected_commands_P q) (injected_commands q).
Definition set_injected_commands_P (p : option (list byte)) (q : t) : t :=
  mk (serial_state q) (ring_buffer q) p (injected_commands q).
Definition set_injected_commands (b : list byte) (q : t) : t :=
  mk (serial_state q) (ring_buffer q) (injected_commands_P q) b.

(** [sizeof(injected_commands)], from [static char injected_commands[64]]. *)
Definition sizeof_injected_commands : nat := 64.

Section methods.
Context `{MarlinConfig}.

(** [static void clear() { ring_buffer.clear(); }] *)
Definition clear (q : t) : t :=
  set_ring_buffer (RingBuffer.clear (ring_buffer q)) q.

(** [static void inject_P(PGM_P const pgcode)
      { injected_commands_P = pgcode; }] *)
Definition inject_P (pgcode : option (list byte)) (q : t) : t :=
  set_injected_commands_P pgcode q.

(** [static void inject(char * const gcode) {
      strncpy(injected_commands, gcode, sizeof(injected_commands) - 1); }] *)
Definition inject (gcode : list byte) : M t unit :=
  q ← M.get;
  b ← M.defined (CString.strncpy (injected_commands q) gcode
                   (sizeof_injected_commands - 1));
  M.put (set_injected_commands b q).

(** [static bool has_commands_queued() { return ring_buffer.length
      || injected_commands_P || injected_commands[0]; }]
    The array has 64 bytes, so byte 0 exists; the [None] branch is never
    taken on a buffer of the declared size. *)
Definition has_commands_queued (q : t) : bool :=
  bool_decide (RingBuffer.length (ring_buffer q) <> 0)
  || bool_decide (injected_commands_P q <> None)
  || match injected_commands q !! 0%nat with
     | Some c => negb (CString.is_nul c)
     | None => false
     end.

(** The RAM injector holds something: [injected_commands[0]] is not
    NUL. *)
Definition scratch_pending (q : t) : Prop :=
  exists c, injected_commands q !! 0%nat = Some c /\ c <> CString.NUL.

(** [static void set_current_line_number(long n)
      { serial_state[ring_buffer.command_port()].last_N = n; }] *)
Definition set_current_line_number (n : Z) : M t unit :=
  q ← M.get;
  p ← M.defined (RingBuffer.command_port (ring_buffer q));
  st ← M.defined (array_get (serial_state q) p);
  ss ← M.defined (array_set (serial_state q) p
                    (SerialState.set_last_N n st));
  M.put (set_serial_state ss q).

End methods.
End GCodeQueue.

(** ** Concrete configuration and states

    A small configuration (four ring slots, 96-byte commands, two serial
    ports, multi-serial tagging on) and states over it, on which the
    definitions above can be run. *)

Module Examples.

Definition config : MarlinConfig :=
  {| BUFSIZE := 4; MAX_CMD_SIZE := 96; NUM_SERIAL := 2;
     HAS_MULTI_SERIAL := true |}.

Definition zeroed (n : nat) : list byte := replicate n CString.NUL.

(** A zero-initialised command slot and serial state. *)
Definition slot0 : CommandLine.t := CommandLine.mk (zeroed 96) false 0.
Definition serial0 : SerialState.t := SerialState.mk 0 0 (zeroed 96) 0.

(** The statically zero-initialised ring and queue. *)
Definition ring0 : RingBuffer.t := RingBuffer.mk 0 0 0 (replicate 4 slot0).
Definition queue0 : GCodeQueue.t :=
  GCodeQueue.mk (replicate 2 serial0) ring0 None (zeroed 64).

(** "G28", "M84" and "M110" as NUL-terminated strings. *)
Definition G28 : list byte := [x47; x32; x38; x00].
Definition M84 : list byte := [x4d; x38; x34; x00].
Definition M110 : list byte := [x4d; x31; x31; x30; x00].

(** A queue whose oldest command, "M110", came from serial port 1. *)
Definition queue1 : GCodeQueue.t :=
  GCodeQueue.mk (replicate 2 serial0)
    (RingBuffer.mk 1 0 1
       (CommandLine.mk (M110 ++ zeroed 91) false 1 :: replicate 3 slot0))
    None (zeroed 64).

(** A NUL-terminated string of 70 characters ['G']. *)
Definition long_gcode : list byte := replicate 70 x47 ++ [x00].

End Examples.

(** ** Further concrete cases *)

Module Cases.

(** A configuration with one serial port and no port tags. *)
Definition single_serial : MarlinConfig :=
  {| BUFSIZE := 4; MAX_CMD_SIZE := 96; NUM_SERIAL := 1;
     HAS_MULTI_SERIAL := false |}.

(** A queue whose oldest command carries the port tag -1, the default
    [serial_ind] of [commit_command] and [enqueue] (queue.h:82, 88). *)
Definition queue_untagged : GCodeQueue.t :=
  GCodeQueue.mk (replicate 2 Examples.serial0)
    (RingBuffer.mk 1 0 1
       (CommandLine.mk (Examples.M110 ++ Examples.zeroed 91) true (-1)
          :: replicate 3 Examples.slot0))
    None (Examples.zeroed 64).

(** Four distinguishable slots. *)
Definition slot (c : byte) (p : Z) : CommandLine.t :=
  CommandLine.mk (c :: Examples.zeroed 95) false p.
Definition slots : list CommandLine.t :=
  [slot x41 0; slot x42 1; slot x43 0; slot x44 1].

(** An empty ring, a ring holding slots 3 and 0, and a full ring. *)
Definition ring_empty : RingBuffer.t := RingBuffer.mk 0 2 2 slots.
Definition ring_two : RingBuffer.t := RingBuffer.mk 2 3 1 slots.
Definition ring_full : RingBuffer.t := RingBuffer.mk 4 2 2 slots.

(** A queue whose scratch buffer has no NUL byte at all. *)
Definition queue_dirty : GCodeQueue.t :=
  GCodeQueue.mk (replicate 2 Examples.serial0) Examples.ring0 None
    (replicate 64 x47).

(** The empty string. *)
Definition empty_string : list byte := [x00].

End Cases.

(** * Properties *)

(** ** Machine integers and arrays *)

Lemma to_uint8_range z : is_uint8 (to_uint8 z).
Proof. unfold is_uint8, to_uint8. apply Z.mod_pos_bound. lia. Qed.

Lemma to_uint8_small z : is_uint8 z -> to_uint8 z = z.
Proof. unfold is_uint8, to_uint8. intros. by apply Z.mod_small. Qed.

Lemma array_get_Some {A} (a : list A) i x :
  array_get a i = Some x <-> 0 <= i /\ a !! Z.to_nat i = Some x.
Proof.
  unfold array_get. case_decide; [tauto|].
  split; [done | intros [? _]; lia].
Qed.

Lemma array_get_is_Some {A} (a : list A) i :
  0 <= i < Z.of_nat (length a) -> is_Some (array_get a i).
Proof.
  intros Hi. unfold array_get. rewrite decide_True by lia.
  apply lookup_lt_is_Some. lia.
Qed.

Lemma array_set_Some {A} (a : list A) i x :
  0 <= i < Z.of_nat (length a) ->
  array_set a i x = Some (<[Z.to_nat i := x]> a).
Proof. intros Hi. unfold array_set. by rewrite decide_True. Qed.

Lemma array_get_set_eq {A} (a a' : list A) i x :
  array_set a i x = Some a' -> array_get a' i = Some x.
Proof.
  unfold array_set, array_get. case_decide as Hi; [|done].
  intros [= <-]. rewrite decide_True by lia.
  apply list_lookup_insert_eq. lia.
Qed.

Lemma array_get_set_ne {A} (a a' : list A) i j x :
  array_set a i x = Some a' -> i <> j -> array_get a' j = array_get a j.
Proof.
  unfold array_set, array_get. case_decide as Hi; [|done].
  intros [= <-] Hne. case_decide; [|done].
  apply list_lookup_insert_ne. lia.
Qed.

Lemma array_set_length {A} (a a' : list A) i x :
  array_set a i x = Some a' -> length a' = length a.
Proof.
  unfold array_set. case_decide; [|done].
  intros [= <-]. apply length_insert.
Qed.

(** ** C strings *)

Lemma is_nul_true c : CString.is_nul c = true <-> c = CString.NUL.
Proof.
  unfold CString.is_nul. split; [apply byte_dec_bl | apply byte_dec_lb].
Qed.

Lemma is_nul_false c : CString.is_nul c = false <-> c <> CString.NUL.
Proof.
  rewrite <- is_nul_true. destruct (CString.is_nul c); split; done.
Qed.

(** ** Unfolding member functions *)

Ltac unfold_member :=
  unfold mbind, mret, M_bind, M_ret, M.bind, M.ret, M.get, M.put,
    M.defined, M.undefined, M.exec in *.

(** ** The ring: [full], [clear], [has_commands_queued] *)

Section ring_queries.

Lemma full_spec `{MarlinConfig} n rb :
  RingBuffer.full n rb = true
  <-> RingBuffer.length rb > BUFSIZE - to_uint8 n.
Proof. unfold RingBuffer.full. apply bool_decide_eq_true. Qed.

Lemma empty_spec rb :
  RingBuffer.empty rb = true <-> RingBuffer.length rb = 0.
Proof.
  unfold RingBuffer.empty, RingBuffer.occupied.
  rewrite negb_true_iff, bool_decide_eq_false. lia.
Qed.

Lemma clear_fields rb :
  RingBuffer.clear rb = RingBuffer.mk 0 0 0 (RingBuffer.commands rb).
Proof. reflexivity. Qed.

Lemma scratch_pending_spec q :
  match GCodeQueue.injected_commands q !! 0%nat with
  | Some c => negb (CString.is_nul c)
  | None => false
  end = true <-> GCodeQueue.scratch_pending q.
Proof.
  unfold GCodeQueue.scratch_pending.
  destruct (GCodeQueue.injected_commands q !! 0%nat) as [c|].
  - rewrite negb_true_iff, is_nul_false. split.
    + intros Hc. by exists c.
    + by intros (c' & [= <-] & Hc).
  - split; [done | by intros (c & ? & _)].
Qed.

Lemma has_commands_queued_spec q :
  GCodeQueue.has_commands_queued q = true <->
    RingBuffer.length (GCodeQueue.ring_buffer q) <> 0
    \/ GCodeQueue.injected_commands_P q <> None
    \/ GCodeQueue.scratch_pending q.
Proof.
  unfold GCodeQueue.has_commands_queued.
  rewrite !orb_true_iff, !bool_decide_eq_true, scratch_pending_spec.
  tauto.
Qed.

End ring_queries.

(** C3: for every ring state and every [n] with [1 <= n <= BUFSIZE],
    [full(n)] is true exactly when [length > BUFSIZE - n]; and when
    [0 <= length <= BUFSIZE], [full()] with its default argument [1] is
    true exactly when [length = BUFSIZE].  [BUFSIZE] fits the [uint8_t]
    parameter. *)
Theorem full_iff `{MarlinConfig} (rb : RingBuffer.t) (n : Z) :
  BUFSIZE <= 255 ->
  1 <= n <= BUFSIZE ->
  (RingBuffer.full n rb = true <-> RingBuffer.length rb > BUFSIZE - n)
  /\ (0 <= RingBuffer.length rb <= BUFSIZE ->
      (RingBuffer.full_default rb = true <-> RingBuffer.length rb = BUFSIZE)).
Proof.
  intros HB Hn. split.
  - rewrite full_spec, to_uint8_small by (unfold is_uint8; lia). done.
  - intros Hlen. unfold RingBuffer.full_default.
    rewrite full_spec, to_uint8_small by (unfold is_uint8; lia). lia.
Qed.

Lemma full_iff_witness :
  let rb := RingBuffer.mk 3 1 0 (replicate 4 Examples.slot0) in
  (@RingBuffer.full Examples.config 2 rb = true <-> 3 > 4 - 2)
  /\ (0 <= 3 <= 4 ->
      (@RingBuffer.full_default Examples.config rb = true <-> 3 = 4)).
Proof.
  apply (@full_iff Examples.config
           (RingBuffer.mk 3 1 0 (replicate 4 Examples.slot0)) 2).
  - simpl. lia.
  - simpl. lia.
Defined.

(** C4: [clear()] sets [length], [index_r] and [index_w] to 0, so the ring
    is empty afterwards, and changes nothing else: the serial states, both
    injector slots and the command slots themselves are as before. *)
Theorem clear_frame (q : GCodeQueue.t) :
  let q' := GCodeQueue.clear q in
  RingBuffer.length (GCodeQueue.ring_buffer q') = 0
  /\ RingBuffer.index_r (GCodeQueue.ring_buffer q') = 0
  /\ RingBuffer.index_w (GCodeQueue.ring_buffer q') = 0
  /\ RingBuffer.empty (GCodeQueue.ring_buffer q') = true
  /\ RingBuffer.commands (GCodeQueue.ring_buffer q')
     = RingBuffer.commands (GCodeQueue.ring_buffer q)
  /\ GCodeQueue.serial_state q' = GCodeQueue.serial_state q
  /\ GCodeQueue.injected_commands_P q' = GCodeQueue.injected_commands_P q
  /\ GCodeQueue.injected_commands q' = GCodeQueue.injected_commands q.
Proof. simpl. repeat split. Qed.

(** C9: [has_commands_queued()] is true exactly when the ring's [length] is
    not 0, or [injected_commands_P] is not null, or [injected_commands[0]]
    is not NUL; it is false exactly when [ring_buffer.empty()] holds and
    both injectors are drained. *)
Theorem has_commands_queued_iff (q : GCodeQueue.t) :
  (GCodeQueue.has_commands_queued q = true <->
     RingBuffer.length (GCodeQueue.ring_buffer q) <> 0
     \/ GCodeQueue.injected_commands_P q <> None
     \/ exists c, GCodeQueue.injected_commands q !! 0%nat = Some c
                  /\ c <> CString.NUL)
  /\ (GCodeQueue.has_commands_queued q = false <->
        RingBuffer.empty (GCodeQueue.ring_buffer q) = true
        /\ GCodeQueue.injected_commands_P q = None
        /\ ~ GCodeQueue.scratch_pending q).
Proof.
  split; [apply has_commands_queued_spec|].
  rewrite <- not_true_iff_false, has_commands_queued_spec, empty_spec.
  destruct (GCodeQueue.injected_commands_P q); split.
  - intros Hn. exfalso. apply Hn. right. left. done.
  - intros (_ & ? & _). done.
  - intros Hn. repeat split; [lia | tauto].
  - intros (-> & _ & Hs). intros [?|[?|?]]; done.
Qed.

(** C10: [clear()] does not cancel pending injected commands: when
    [injected_commands_P] is not null or [injected_commands[0]] is not NUL,
    [has_commands_queued()] is still true right after [clear()], although
    the ring is empty. *)
Theorem clear_keeps_injected (q : GCodeQueue.t) :
  GCodeQueue.injected_commands_P q <> None \/ GCodeQueue.scratch_pending q ->
  GCodeQueue.has_commands_queued (GCodeQueue.clear q) = true
  /\ RingBuffer.empty (GCodeQueue.ring_buffer (GCodeQueue.clear q)) = true.
Proof.
  intros Hp. split; [|reflexivity].
  apply has_commands_queued_spec. right. exact Hp.
Qed.

Lemma clear_keeps_injected_witness :
  let q := GCodeQueue.inject_P (Some Examples.G28) Examples.queue0 in
  GCodeQueue.has_commands_queued (GCodeQueue.clear q) = true
  /\ RingBuffer.empty (GCodeQueue.ring_buffer (GCodeQueue.clear q)) = true.
Proof.
  apply (clear_keeps_injected
           (GCodeQueue.inject_P (Some Examples.G28) Examples.queue0)).
  left. simpl. discriminate.
Defined.

(** ** The ring: what [enqueue], [commit_command] and [pop] compute *)

Section ring_steps.
Context `{MarlinConfig}.

Lemma array_get_lt {A} (a : list A) i x :
  array_get a i = Some x -> 0 <= i < Z.of_nat (length a).
Proof.
  intros [Hi Hx]%array_get_Some. apply lookup_lt_Some in Hx. lia.
Qed.

Lemma commit_command_defined rb k p c :
  array_get (RingBuffer.commands rb) (RingBuffer.index_w rb) = Some c ->
  RingBuffer.commit_command k p rb
  = Some (tt, RingBuffer.advance_pos RingBuffer.IndexW 1
                (RingBuffer.set_commands
                   (<[Z.to_nat (RingBuffer.index_w rb) :=
                        CommandLine.mk (CommandLine.buffer c) k p]>
                      (RingBuffer.commands rb)) rb)).
Proof.
  intros Hc. unfold RingBuffer.commit_command. unfold_member.
  rewrite Hc. rewrite array_set_Some by eauto using array_get_lt.
  reflexivity.
Qed.

Lemma enqueue_full rb cmd k p :
  RingBuffer.length rb = BUFSIZE ->
  RingBuffer.enqueue cmd k p rb = Some (false, rb).
Proof.
  intros Hfull. unfold RingBuffer.enqueue. unfold_member.
  by rewrite decide_True.
Qed.

Lemma enqueue_not_full rb cmd k p c b :
  RingBuffer.length rb <> BUFSIZE ->
  array_get (RingBuffer.commands rb) (RingBuffer.index_w rb) = Some c ->
  RingBuffer.copy_truncated (CommandLine.buffer c) cmd = Some b ->
  RingBuffer.enqueue cmd k p rb
  = Some (true, RingBuffer.advance_pos RingBuffer.IndexW 1
                  (RingBuffer.set_commands
                     (<[Z.to_nat (RingBuffer.index_w rb) :=
                          CommandLine.mk b k p]>
                        (RingBuffer.commands rb)) rb)).
Proof.
  intros Hlen Hc Hb. pose proof (array_get_lt _ _ _ Hc) as Hw.
  unfold RingBuffer.enqueue. unfold_member.
  rewrite decide_False by done. rewrite Hc, Hb.
  rewrite array_set_Some by done.
  erewrite commit_command_defined; last first.
  { simpl. eapply array_get_set_eq, array_set_Some. done. }
  simpl. by rewrite list_insert_insert_eq.
Qed.

Lemma enqueue_inv rb cmd k p r rb' :
  RingBuffer.enqueue cmd k p rb = Some (r, rb') ->
  (RingBuffer.length rb = BUFSIZE /\ r = false /\ rb' = rb)
  \/ (RingBuffer.length rb <> BUFSIZE /\ r = true /\
      exists c b,
        array_get (RingBuffer.commands rb) (RingBuffer.index_w rb) = Some c
        /\ RingBuffer.copy_truncated (CommandLine.buffer c) cmd = Some b
        /\ rb' = RingBuffer.advance_pos RingBuffer.IndexW 1
                   (RingBuffer.set_commands
                      (<[Z.to_nat (RingBuffer.index_w rb) :=
                           CommandLine.mk b k p]>
                         (RingBuffer.commands rb)) rb)).
Proof.
  destruct (decide (RingBuffer.length rb = BUFSIZE)) as [Hfull|Hlen].
  - rewrite enqueue_full by done. intros [= <- <-]. by left.
  - intros He. right.
    destruct (array_get (RingBuffer.commands rb) (RingBuffer.index_w rb))
      as [c|] eqn:Hc; last first.
    { revert He. unfold RingBuffer.enqueue. unfold_member.
      rewrite decide_False by done. by rewrite Hc. }
    destruct (RingBuffer.copy_truncated (CommandLine.buffer c) cmd)
      as [b|] eqn:Hb; last first.
    { revert He. unfold RingBuffer.enqueue. unfold_member.
      rewrite decide_False by done. by rewrite Hc, Hb. }
    rewrite (enqueue_not_full _ _ _ _ c b) in He by done.
    injection He as <- <-. eauto 10.
Qed.

Lemma pop_defined rb :
  RingBuffer.length rb > 0 ->
  RingBuffer.pop rb
  = Some (tt, RingBuffer.advance_pos RingBuffer.IndexR (-1) rb).
Proof.
  intros Hlen. unfold RingBuffer.pop. unfold_member.
  by rewrite decide_True.
Qed.

Lemma pop_inv rb u rb' :
  RingBuffer.pop rb = Some (u, rb') ->
  RingBuffer.length rb > 0
  /\ rb' = RingBuffer.advance_pos RingBuffer.IndexR (-1) rb.
Proof.
  unfold RingBuffer.pop. unfold_member. case_decide; [|done].
  by intros [= <- <-].
Qed.

Lemma run_nil rb : RingBuffer.run [] rb = Some (tt, rb).
Proof. reflexivity. Qed.

Lemma run_cons o ops rb :
  RingBuffer.run (o :: ops) rb
  = match RingBuffer.step o rb with
    | Some (_, rb') => RingBuffer.run ops rb'
    | None => None
    end.
Proof. reflexivity. Qed.

Lemma step_enqueue cmd k p rb :
  RingBuffer.step (RingBuffer.Enqueue cmd k p) rb
  = match RingBuffer.enqueue cmd k p rb with
    | Some (_, rb') => Some (tt, rb')
    | None => None
    end.
Proof. reflexivity. Qed.

End ring_steps.

(** ** The ring: integrity *)

Section ring_integrity.
Context `{MarlinConfig}.
Hypothesis BUFSIZE_uint8 : 0 < BUFSIZE <= 255.

Lemma clear_in_range rb : RingBuffer.in_range (RingBuffer.clear rb).
Proof.
  unfold RingBuffer.in_range, RingBuffer.integrity. simpl.
  rewrite Z.mod_0_l by lia. lia.
Qed.

Lemma in_range_set_commands cs rb :
  RingBuffer.in_range (RingBuffer.set_commands cs rb)
  <-> RingBuffer.in_range rb.
Proof. reflexivity. Qed.

Lemma integrity_index_w rb :
  RingBuffer.integrity rb -> 0 <= RingBuffer.index_w rb < BUFSIZE.
Proof. intros [<- _]. apply Z.mod_pos_bound. lia. Qed.

(** [advance_pos(index_w, 1)] on a ring that is not full. *)
Lemma advance_w_fields rb :
  0 <= RingBuffer.index_w rb < BUFSIZE ->
  0 <= RingBuffer.length rb < BUFSIZE ->
  RingBuffer.advance_pos RingBuffer.IndexW 1 rb
  = RingBuffer.mk (RingBuffer.length rb + 1) (RingBuffer.index_r rb)
      ((RingBuffer.index_w rb + 1) mod BUFSIZE) (RingBuffer.commands rb).
Proof.
  intros Hw Hlen. unfold RingBuffer.advance_pos. simpl.
  rewrite (to_uint8_small (RingBuffer.index_w rb + 1))
    by (unfold is_uint8; lia).
  destruct (decide (RingBuffer.index_w rb + 1 = BUFSIZE)) as [Heq|Hne].
  - rewrite decide_True by lia. simpl.
    rewrite to_uint8_small by (unfold is_uint8; lia).
    rewrite Heq, Z.mod_same by lia. reflexivity.
  - rewrite decide_False by lia. simpl.
    rewrite to_uint8_small by (unfold is_uint8; lia).
    rewrite Z.mod_small by lia. reflexivity.
Qed.

(** [advance_pos(index_r, -1)] on a ring that is not empty. *)
Lemma advance_r_fields rb :
  0 <= RingBuffer.index_r rb < BUFSIZE ->
  0 < RingBuffer.length rb <= BUFSIZE ->
  RingBuffer.advance_pos RingBuffer.IndexR (-1) rb
  = RingBuffer.mk (RingBuffer.length rb - 1)
      ((RingBuffer.index_r rb + 1) mod BUFSIZE)
      (RingBuffer.index_w rb) (RingBuffer.commands rb).
Proof.
  intros Hr Hlen. unfold RingBuffer.advance_pos. simpl.
  rewrite (to_uint8_small (RingBuffer.index_r rb + 1))
    by (unfold is_uint8; lia).
  destruct (decide (RingBuffer.index_r rb + 1 = BUFSIZE)) as [Heq|Hne].
  - rewrite decide_True by lia. simpl.
    rewrite to_uint8_small by (unfold is_uint8; lia).
    rewrite Heq, Z.mod_same by lia. reflexivity.
  - rewrite decide_False by lia. simpl.
    rewrite to_uint8_small by (unfold is_uint8; lia).
    rewrite Z.mod_small by lia. reflexivity.
Qed.

Lemma advance_w_integrity rb :
  RingBuffer.integrity rb -> RingBuffer.length rb < BUFSIZE ->
  RingBuffer.integrity (RingBuffer.advance_pos RingBuffer.IndexW 1 rb).
Proof.
  intros Hi Hlen. pose proof (integrity_index_w _ Hi) as Hw.
  destruct Hi as [Hmod Hl].
  rewrite advance_w_fields by lia.
  unfold RingBuffer.integrity. simpl. split; [|lia].
  rewrite <- Hmod, Zplus_mod_idemp_l. f_equal. lia.
Qed.

Lemma advance_w_in_range rb :
  RingBuffer.in_range rb -> RingBuffer.length rb < BUFSIZE ->
  RingBuffer.in_range (RingBuffer.advance_pos RingBuffer.IndexW 1 rb).
Proof.
  intros [Hr Hi] Hlen. split; [|by apply advance_w_integrity].
  pose proof (integrity_index_w _ Hi) as Hw. destruct Hi as [_ Hl].
  by rewrite advance_w_fields by lia.
Qed.

Lemma advance_r_in_range rb :
  RingBuffer.in_range rb -> RingBuffer.length rb > 0 ->
  RingBuffer.in_range (RingBuffer.advance_pos RingBuffer.IndexR (-1) rb).
Proof.
  intros [Hr [Hmod Hl]] Hlen.
  rewrite advance_r_fields by lia.
  unfold RingBuffer.in_range, RingBuffer.integrity. simpl.
  repeat split; try lia; try (apply Z.mod_pos_bound; lia).
  rewrite <- Hmod, Zplus_mod_idemp_l. f_equal. lia.
Qed.

Lemma step_in_range o rb u rb' :
  RingBuffer.step o rb = Some (u, rb') ->
  RingBuffer.in_range rb -> RingBuffer.in_range rb'.
Proof.
  destruct o as [cmd k p|].
  - rewrite step_enqueue.
    destruct (RingBuffer.enqueue cmd k p rb) as [[r rb1]|] eqn:He; [|done].
    intros [= <- <-] Hin.
    apply enqueue_inv in He
        as [(_ & _ & ->)|(Hlen & _ & c & b & _ & _ & ->)]; [done|].
    apply advance_w_in_range.
    + by apply in_range_set_commands.
    + simpl. destruct Hin as (_ & _ & ?). lia.
  - intros [Hlen ->]%pop_inv Hin. by apply advance_r_in_range.
Qed.

Lemma run_in_range ops rb u rb' :
  RingBuffer.run ops rb = Some (u, rb') ->
  RingBuffer.in_range rb -> RingBuffer.in_range rb'.
Proof.
  revert rb. induction ops as [|o ops IH]; intros rb.
  - rewrite run_nil. by intros [= <- <-].
  - rewrite run_cons.
    destruct (RingBuffer.step o rb) as [[u1 rb1]|] eqn:Hs; [|done].
    intros Hrun Hin. eapply IH; [done|]. by eapply step_in_range.
Qed.

End ring_integrity.

(** C1: after any sequence of [enqueue] and [pop] operations that starts
    from the cleared ring, [(index_r + length) mod BUFSIZE = index_w] and
    [0 <= length <= BUFSIZE].  In particular [clear()] establishes this, and
    from any state so reached [advance_pos(index_w, +1)] keeps it when
    [length < BUFSIZE] and [advance_pos(index_r, -1)] keeps it when
    [length > 0].  The step for [index_w] keeps it from every state that
    satisfies it, the step for [index_r] from every such state whose
    [index_r] is below [BUFSIZE].  [BUFSIZE] is positive and fits the
    [uint8_t] members. *)
Theorem ring_integrity `{MarlinConfig}
    (rb0 : RingBuffer.t) (ops : list RingBuffer.op) (rb : RingBuffer.t) :
  0 < BUFSIZE <= 255 ->
  M.exec (RingBuffer.run ops) (RingBuffer.clear rb0) = Some rb ->
  RingBuffer.integrity (RingBuffer.clear rb0)
  /\ RingBuffer.integrity rb
  /\ (RingBuffer.length rb < BUFSIZE ->
      RingBuffer.integrity (RingBuffer.advance_pos RingBuffer.IndexW 1 rb))
  /\ (RingBuffer.length rb > 0 ->
      RingBuffer.integrity (RingBuffer.advance_pos RingBuffer.IndexR (-1) rb))
  /\ (forall s,
        RingBuffer.integrity s -> RingBuffer.length s < BUFSIZE ->
        RingBuffer.integrity (RingBuffer.advance_pos RingBuffer.IndexW 1 s))
  /\ (forall s,
        RingBuffer.integrity s -> 0 <= RingBuffer.index_r s < BUFSIZE ->
        RingBuffer.length s > 0 ->
        RingBuffer.integrity
          (RingBuffer.advance_pos RingBuffer.IndexR (-1) s)).
Proof.
  intros HB Hrun. unfold M.exec in Hrun.
  destruct (RingBuffer.run ops (RingBuffer.clear rb0)) as [[u rb1]|] eqn:Hr;
    [|done].
  injection Hrun as ->.
  pose proof (clear_in_range HB rb0) as H0.
  pose proof (run_in_range HB _ _ _ _ Hr H0) as Hin.
  split; [apply H0|]. split; [apply Hin|].
  split; [intros Hlen; by apply advance_w_in_range|].
  split; [intros Hlen; by apply advance_r_in_range|].
  split; [intros s; by apply advance_w_integrity|].
  intros s Hi Hs Hlen. by apply advance_r_in_range.
Qed.

Lemma ring_integrity_witness :
  let ops := [RingBuffer.Enqueue Examples.G28 true (-1);
              RingBuffer.Enqueue Examples.M84 false 0;
              RingBuffer.Pop;
              RingBuffer.Enqueue Examples.M110 false 1;
              RingBuffer.Enqueue Examples.G28 true (-1);
              RingBuffer.Enqueue Examples.M84 true (-1);
              RingBuffer.Enqueue Examples.M84 true (-1);
              RingBuffer.Pop; RingBuffer.Pop] in
  exists rb,
    M.exec (@RingBuffer.run Examples.config ops)
      (RingBuffer.clear Examples.ring0) = Some rb
    /\ RingBuffer.length rb = 2
    /\ RingBuffer.index_r rb = 3
    /\ RingBuffer.index_w rb = 1
    /\ @RingBuffer.integrity Examples.config rb.
Proof.
  intros ops. eexists. split; [vm_compute; reflexivity|].
  split; [reflexivity|]. split; [reflexivity|]. split; [reflexivity|].
  refine (proj1 (proj2
            (@ring_integrity Examples.config Examples.ring0 ops _ _ _))).
  - simpl. lia.
  - vm_compute. reflexivity.
Defined.

(** ** C strings: [chars] *)

Lemma chars_no_nul s : CString.NUL ∉ CString.chars s.
Proof.
  induction s as [|c s IH]; simpl; [apply not_elem_of_nil|].
  destruct (CString.is_nul c) eqn:Hc; [apply not_elem_of_nil|].
  apply is_nul_false in Hc. apply not_elem_of_cons. split; congruence.
Qed.

Lemma chars_app_nul s rest :
  CString.NUL ∉ s -> CString.chars (s ++ CString.NUL :: rest) = s.
Proof.
  induction s as [|c s IH]; simpl; [done|].
  intros [Hc Hs]%not_elem_of_cons.
  assert (CString.is_nul c = false) as -> by (apply is_nul_false; congruence).
  by rewrite IH.
Qed.

Lemma take_no_nul n s : CString.NUL ∉ s -> CString.NUL ∉ take n s.
Proof. intros Hs Ht. apply Hs. by eapply subseteq_take. Qed.

Lemma chars_length_le s : (length (CString.chars s) <= length s)%nat.
Proof.
  induction s as [|c s IH]; simpl; [done|].
  destruct (CString.is_nul c); simpl; lia.
Qed.

(** ** The ring: [enqueue] *)

Section ring_enqueue.
Context `{MarlinConfig}.
Hypothesis BUFSIZE_uint8 : 0 < BUFSIZE <= 255.
Hypothesis MAX_CMD_SIZE_pos : 0 < MAX_CMD_SIZE.

Lemma copy_truncated_defined dest cmd :
  Z.of_nat (length dest) = MAX_CMD_SIZE ->
  exists b,
    RingBuffer.copy_truncated dest cmd = Some b
    /\ CString.chars b
       = take (Z.to_nat (MAX_CMD_SIZE - 1)) (CString.chars cmd)
    /\ length b = length dest.
Proof.
  intros Hd. unfold RingBuffer.copy_truncated.
  set (s := take (Z.to_nat (MAX_CMD_SIZE - 1)) (CString.chars cmd)).
  assert (length s < length dest)%nat as Hs.
  { unfold s. rewrite length_take. lia. }
  rewrite decide_True by done. eexists. split; [done|]. split.
  - apply chars_app_nul, take_no_nul, chars_no_nul.
  - rewrite length_app. simpl. rewrite length_drop. lia.
Qed.

Lemma wf_index_w rb :
  RingBuffer.wf rb ->
  0 <= RingBuffer.index_w rb < Z.of_nat (length (RingBuffer.commands rb)).
Proof.
  intros [[_ Hi] ->]. by apply integrity_index_w.
Qed.

Lemma wf_index_r rb :
  RingBuffer.wf rb ->
  0 <= RingBuffer.index_r rb < Z.of_nat (length (RingBuffer.commands rb)).
Proof. by intros [[Hr _] ->]. Qed.

Lemma sized_lookup rb i c :
  RingBuffer.sized rb -> array_get (RingBuffer.commands rb) i = Some c ->
  Z.of_nat (length (CommandLine.buffer c)) = MAX_CMD_SIZE.
Proof.
  intros Hs [_ Hc]%array_get_Some.
  by eapply (Forall_lookup_1 _ _ _ _ Hs).
Qed.

Lemma sized_insert rb i c :
  RingBuffer.sized rb ->
  Z.of_nat (length (CommandLine.buffer c)) = MAX_CMD_SIZE ->
  RingBuffer.sized
    (RingBuffer.set_commands (<[i := c]> (RingBuffer.commands rb)) rb).
Proof.
  intros Hs Hc. unfold RingBuffer.sized. simpl. by apply Forall_insert.
Qed.

End ring_enqueue.

(** C2: [enqueue] on a full ring ([length = BUFSIZE]) returns false and
    leaves the whole ring state as it was.  Otherwise, on a well-formed ring
    whose slots hold [MAX_CMD_SIZE] bytes, it returns true; slot [index_w]
    then holds [cmd] cut to [MAX_CMD_SIZE - 1] characters and NUL-terminated,
    together with [skip_ok] and the port tag; the other slots and [index_r]
    are as before; [index_w] has advanced modulo [BUFSIZE] and [length] has
    grown by one.  The ring stays well-formed. *)
Theorem enqueue_spec `{MarlinConfig}
    (rb : RingBuffer.t) (cmd : list byte) (skip_ok : bool) (serial_ind : Z) :
  0 < BUFSIZE <= 255 -> 0 < MAX_CMD_SIZE ->
  (RingBuffer.length rb = BUFSIZE ->
   RingBuffer.enqueue cmd skip_ok serial_ind rb = Some (false, rb))
  /\ (RingBuffer.length rb <> BUFSIZE ->
      RingBuffer.wf rb -> RingBuffer.sized rb ->
      exists rb' slot,
        RingBuffer.enqueue cmd skip_ok serial_ind rb = Some (true, rb')
        /\ array_get (RingBuffer.commands rb') (RingBuffer.index_w rb)
           = Some slot
        /\ CString.chars (CommandLine.buffer slot)
           = take (Z.to_nat (MAX_CMD_SIZE - 1)) (CString.chars cmd)
        /\ CommandLine.skip_ok slot = skip_ok
        /\ CommandLine.port slot = serial_ind
        /\ (forall j, j <> RingBuffer.index_w rb ->
              array_get (RingBuffer.commands rb') j
              = array_get (RingBuffer.commands rb) j)
        /\ RingBuffer.index_w rb' = (RingBuffer.index_w rb + 1) mod BUFSIZE
        /\ RingBuffer.index_r rb' = RingBuffer.index_r rb
        /\ RingBuffer.length rb' = RingBuffer.length rb + 1
        /\ RingBuffer.wf rb' /\ RingBuffer.sized rb').
Proof.
  intros HB HM. split; [apply enqueue_full|].
  intros Hlen Hwf Hsz.
  pose proof (wf_index_w HB _ Hwf) as Hw.
  destruct (array_get_is_Some _ _ Hw) as [c Hc].
  destruct (copy_truncated_defined HM (CommandLine.buffer c) cmd)
    as (b & Hb & Hchars & Hblen); [by eapply sized_lookup|].
  pose proof (array_set_Some (RingBuffer.commands rb) (RingBuffer.index_w rb)
                (CommandLine.mk b skip_ok serial_ind) Hw) as Hset.
  destruct Hwf as [Hin Hcs]. pose proof Hin as (Hr & Hmod & Hl).
  assert (RingBuffer.in_range
            (RingBuffer.advance_pos RingBuffer.IndexW 1
               (RingBuffer.set_commands
                  (<[Z.to_nat (RingBuffer.index_w rb) :=
                       CommandLine.mk b skip_ok serial_ind]>
                     (RingBuffer.commands rb)) rb))) as Hin'.
  { apply advance_w_in_range; [done| |simpl; lia].
    by apply in_range_set_commands. }
  eexists _, (CommandLine.mk b skip_ok serial_ind).
  split; [by eapply enqueue_not_full|].
  rewrite advance_w_fields in Hin' |- * by (simpl; lia). simpl.
  split; [by eapply array_get_set_eq|].
  split; [done|]. split; [done|]. split; [done|].
  split; [intros j Hj; by eapply array_get_set_ne|].
  split; [done|]. split; [done|]. split; [done|]. split.
  - split; [exact Hin'|]. simpl. by rewrite length_insert.
  - apply (sized_insert rb); [done|]. simpl.
    erewrite <- (sized_lookup rb); [|done..]. by rewrite Hblen.
Qed.

Lemma enqueue_spec_witness :
  exists rb' slot,
    @RingBuffer.enqueue Examples.config Examples.G28 true (-1) Examples.ring0
    = Some (true, rb')
    /\ array_get (RingBuffer.commands rb') 0 = Some slot
    /\ CString.chars (CommandLine.buffer slot) = [x47; x32; x38]
    /\ CommandLine.skip_ok slot = true
    /\ CommandLine.port slot = -1
    /\ RingBuffer.index_w rb' = 1
    /\ RingBuffer.index_r rb' = 0
    /\ RingBuffer.length rb' = 1.
Proof.
  assert (0 < @BUFSIZE Examples.config <= 255) as HB by (simpl; lia).
  assert (0 < @MAX_CMD_SIZE Examples.config) as HM by (simpl; lia).
  assert (RingBuffer.length Examples.ring0 <> @BUFSIZE Examples.config)
    as Hne by (simpl; lia).
  assert (@RingBuffer.wf Examples.config Examples.ring0) as Hwf
    by (repeat split; simpl; try lia; reflexivity).
  assert (@RingBuffer.sized Examples.config Examples.ring0) as Hsz
    by (repeat constructor).
  destruct (proj2 (@enqueue_spec Examples.config Examples.ring0 Examples.G28
                     true (-1) HB HM) Hne Hwf Hsz)
    as (rb' & slot & He & Hslot & Hchars & Hk & Hp & _ & Hw & Hr & Hlen & _).
  exists rb', slot. repeat split; assumption.
Defined.

(** ** The ring as a FIFO *)

Section ring_fifo.
Context `{MarlinConfig}.
Hypothesis BUFSIZE_uint8 : 0 < BUFSIZE <= 255.

Lemma queued_length rb :
  length (RingBuffer.queued rb) = Z.to_nat (RingBuffer.length rb).
Proof. unfold RingBuffer.queued. by rewrite length_fmap, length_seqZ. Qed.

Lemma queued_lookup rb (i : nat) :
  Z.of_nat i < RingBuffer.length rb ->
  RingBuffer.queued rb !! i = Some (RingBuffer.slot_at rb (Z.of_nat i)).
Proof.
  intros Hi. unfold RingBuffer.queued.
  by rewrite list_lookup_fmap, lookup_seqZ_lt.
Qed.

Lemma mod_window_inj r i j :
  0 <= i < BUFSIZE -> 0 <= j < BUFSIZE ->
  (r + i) mod BUFSIZE = (r + j) mod BUFSIZE -> i = j.
Proof.
  intros Hi Hj Heq.
  assert ((i - j) mod BUFSIZE = 0) as Hd.
  { replace (i - j) with ((r + i) - (r + j)) by lia.
    rewrite Zminus_mod, Heq, Z.sub_diag. apply Z.mod_0_l. lia. }
  apply Z.mod_divide in Hd; [|lia]. destruct Hd as [k Hk].
  assert (k = 0) as -> by nia. lia.
Qed.

(** After a successful [enqueue] the new slot is behind the old ones. *)
Lemma queued_enqueue rb slot :
  RingBuffer.wf rb -> RingBuffer.length rb < BUFSIZE ->
  RingBuffer.queued
    (RingBuffer.mk (RingBuffer.length rb + 1) (RingBuffer.index_r rb)
       ((RingBuffer.index_w rb + 1) mod BUFSIZE)
       (<[Z.to_nat (RingBuffer.index_w rb) := slot]> (RingBuffer.commands rb)))
  = RingBuffer.queued rb ++ [Some slot].
Proof.
  intros [(Hr & Hmod & Hl) Hcs] Hlen.
  assert (0 <= RingBuffer.index_w rb
          < Z.of_nat (length (RingBuffer.commands rb))) as Hw.
  { rewrite Hcs, <- Hmod. apply Z.mod_pos_bound. lia. }
  pose proof (array_set_Some _ _ slot Hw) as Hset.
  unfold RingBuffer.queued at 1. simpl.
  rewrite seqZ_app by lia. rewrite fmap_app. f_equal.
  - unfold RingBuffer.queued. apply list_fmap_ext.
    intros k i [-> Hi]%lookup_seqZ.
    unfold RingBuffer.slot_at. simpl.
    eapply array_get_set_ne; [done|]. rewrite <- Hmod.
    intros Heq%mod_window_inj; lia.
  - rewrite seqZ_cons, seqZ_nil by lia. simpl.
    unfold RingBuffer.slot_at. simpl. rewrite Z.add_0_l, Hmod.
    f_equal. by eapply array_get_set_eq.
Qed.

(** [pop] removes the slot at the read position from the front. *)
Lemma queued_pop rb :
  RingBuffer.wf rb -> RingBuffer.length rb > 0 ->
  RingBuffer.queued rb
  = array_get (RingBuffer.commands rb) (RingBuffer.index_r rb)
    :: RingBuffer.queued
         (RingBuffer.mk (RingBuffer.length rb - 1)
            ((RingBuffer.index_r rb + 1) mod BUFSIZE)
            (RingBuffer.index_w rb) (RingBuffer.commands rb)).
Proof.
  intros [(Hr & Hmod & Hl) Hcs] Hlen.
  unfold RingBuffer.queued. simpl.
  rewrite (seqZ_cons 0 (RingBuffer.length rb)) by lia. simpl. f_equal.
  - unfold RingBuffer.slot_at. by rewrite Z.add_0_r, Z.mod_small.
  - replace (Z.succ 0) with (1 + 0) by lia.
    rewrite <- fmap_add_seqZ, <- list_fmap_compose.
    replace (Z.pred (RingBuffer.length rb)) with (RingBuffer.length rb - 1)
      by lia.
    apply list_fmap_ext. intros k i _. simpl.
    unfold RingBuffer.slot_at. simpl. f_equal.
    rewrite Zplus_mod_idemp_l. f_equal. lia.
Qed.

Lemma queued_all_Some rb :
  RingBuffer.wf rb -> Forall is_Some (RingBuffer.queued rb).
Proof.
  intros [(Hr & Hmod & Hl) Hcs]. unfold RingBuffer.queued.
  apply Forall_fmap, Forall_forall. intros i _. simpl.
  apply array_get_is_Some. rewrite Hcs. apply Z.mod_pos_bound. lia.
Qed.

Lemma omap_fmap_length {A B} (f : A -> B) (l : list (option A)) :
  Forall is_Some l -> length (omap (fmap f) l) = length l.
Proof.
  induction 1 as [|x l [a ->] _ IH]; [done|]. simpl. f_equal. exact IH.
Qed.

Lemma entries_length rb :
  RingBuffer.wf rb ->
  Z.of_nat (length (RingBuffer.entries rb)) = RingBuffer.length rb.
Proof.
  intros Hwf. unfold RingBuffer.entries.
  rewrite omap_fmap_length by by apply queued_all_Some.
  rewrite queued_length. destruct Hwf as [(_ & _ & ?) _]. lia.
Qed.

Lemma entries_clear rb : RingBuffer.entries (RingBuffer.clear rb) = [].
Proof. reflexivity. Qed.

Lemma entries_enqueue rb slot :
  RingBuffer.wf rb -> RingBuffer.length rb < BUFSIZE ->
  RingBuffer.entries
    (RingBuffer.mk (RingBuffer.length rb + 1) (RingBuffer.index_r rb)
       ((RingBuffer.index_w rb + 1) mod BUFSIZE)
       (<[Z.to_nat (RingBuffer.index_w rb) := slot]> (RingBuffer.commands rb)))
  = RingBuffer.entries rb ++ [RingBuffer.entry_of slot].
Proof.
  intros Hwf Hlen. unfold RingBuffer.entries.
  rewrite queued_enqueue by done. by rewrite omap_app.
Qed.

Lemma entries_pop rb :
  RingBuffer.wf rb -> RingBuffer.length rb > 0 ->
  exists c,
    array_get (RingBuffer.commands rb) (RingBuffer.index_r rb) = Some c
    /\ RingBuffer.entries rb
       = RingBuffer.entry_of c
         :: RingBuffer.entries
              (RingBuffer.mk (RingBuffer.length rb - 1)
                 ((RingBuffer.index_r rb + 1) mod BUFSIZE)
                 (RingBuffer.index_w rb) (RingBuffer.commands rb)).
Proof.
  intros Hwf Hlen.
  destruct (array_get_is_Some (RingBuffer.commands rb) (RingBuffer.index_r rb))
    as [c Hc]; [by apply wf_index_r|].
  exists c. split; [done|]. unfold RingBuffer.entries.
  rewrite (queued_pop rb) by done. by rewrite Hc.
Qed.

(** On a well-formed ring that is not full [enqueue] is defined, and this
    is its result. *)
Lemma enqueue_wf rb cmd k p :
  0 < MAX_CMD_SIZE ->
  RingBuffer.wf rb -> RingBuffer.sized rb -> RingBuffer.length rb <> BUFSIZE ->
  exists b,
    CString.chars b = take (Z.to_nat (MAX_CMD_SIZE - 1)) (CString.chars cmd)
    /\ Z.of_nat (length b) = MAX_CMD_SIZE
    /\ RingBuffer.enqueue cmd k p rb
       = Some (true,
               RingBuffer.mk (RingBuffer.length rb + 1) (RingBuffer.index_r rb)
                 ((RingBuffer.index_w rb + 1) mod BUFSIZE)
                 (<[Z.to_nat (RingBuffer.index_w rb) := CommandLine.mk b k p]>
                    (RingBuffer.commands rb))).
Proof.
  intros HM Hwf Hsz Hlen.
  pose proof (wf_index_w BUFSIZE_uint8 _ Hwf) as Hw.
  destruct (array_get_is_Some _ _ Hw) as [c Hc].
  pose proof (sized_lookup _ _ _ Hsz Hc) as Hclen.
  destruct (copy_truncated_defined HM (CommandLine.buffer c) cmd Hclen)
    as (b & Hb & Hchars & Hblen).
  destruct Hwf as [(Hr & Hmod & Hl) Hcs].
  exists b. split; [done|]. split; [lia|].
  erewrite enqueue_not_full by done.
  rewrite advance_w_fields by (simpl; lia). done.
Qed.

Lemma wf_enqueue rb slot :
  RingBuffer.wf rb -> RingBuffer.length rb < BUFSIZE ->
  RingBuffer.wf
    (RingBuffer.mk (RingBuffer.length rb + 1) (RingBuffer.index_r rb)
       ((RingBuffer.index_w rb + 1) mod BUFSIZE)
       (<[Z.to_nat (RingBuffer.index_w rb) := slot]> (RingBuffer.commands rb))).
Proof.
  intros [Hin Hcs] Hlen. pose proof Hin as (Hr & Hmod & Hl).
  pose proof (integrity_index_w BUFSIZE_uint8 _ (proj2 Hin)) as Hw.
  split; [|simpl; by rewrite length_insert].
  pose proof (advance_w_in_range BUFSIZE_uint8 rb Hin Hlen) as Hin'.
  by rewrite advance_w_fields in Hin' by lia.
Qed.

Lemma wf_pop rb :
  RingBuffer.wf rb -> RingBuffer.length rb > 0 ->
  RingBuffer.wf
    (RingBuffer.mk (RingBuffer.length rb - 1)
       ((RingBuffer.index_r rb + 1) mod BUFSIZE)
       (RingBuffer.index_w rb) (RingBuffer.commands rb)).
Proof.
  intros [Hin Hcs] Hlen. pose proof Hin as (Hr & Hmod & Hl).
  split; [|done].
  pose proof (advance_r_in_range BUFSIZE_uint8 rb Hin Hlen) as Hin'.
  by rewrite advance_r_fields in Hin' by lia.
Qed.

(** One ring operation is one FIFO operation, and keeps the ring
    well-formed. *)
Lemma step_refines o rb u rb' :
  0 < MAX_CMD_SIZE ->
  RingBuffer.wf rb -> RingBuffer.sized rb ->
  RingBuffer.step o rb = Some (u, rb') ->
  RingBuffer.fifo_step o (RingBuffer.entries rb)
  = Some (RingBuffer.entries rb')
  /\ RingBuffer.wf rb' /\ RingBuffer.sized rb'.
Proof.
  intros HM Hwf Hsz. destruct o as [cmd k p|].
  - rewrite step_enqueue. simpl RingBuffer.fifo_step.
    destruct (decide (RingBuffer.length rb = BUFSIZE)) as [Hfull|Hne].
    + rewrite enqueue_full by done. intros [= <- <-].
      by rewrite decide_True by by rewrite entries_length.
    + destruct (enqueue_wf rb cmd k p HM Hwf Hsz Hne)
        as (b & Hchars & Hblen & ->).
      intros [= <- <-].
      assert (RingBuffer.length rb < BUFSIZE) as Hlt
        by (destruct Hwf as [(_ & _ & ?) _]; lia).
      rewrite decide_False by by rewrite entries_length.
      rewrite entries_enqueue by done.
      unfold RingBuffer.entry_of. simpl. rewrite Hchars.
      split; [done|]. split; [by apply wf_enqueue|].
      by apply (sized_insert rb).
  - intros [Hlen ->]%pop_inv. simpl RingBuffer.fifo_step.
    pose proof Hwf as [Hin Hcs]. pose proof Hin as (Hr & Hmod & Hl).
    rewrite advance_r_fields by lia.
    destruct (entries_pop rb) as (c & _ & ->); [done..|].
    split; [done|]. split; [by apply wf_pop|done].
Qed.

(** A run of ring operations is a run of the FIFO. *)
Lemma run_refines ops rb u rb' :
  0 < MAX_CMD_SIZE ->
  RingBuffer.wf rb -> RingBuffer.sized rb ->
  RingBuffer.run ops rb = Some (u, rb') ->
  RingBuffer.fifo_run ops (RingBuffer.entries rb)
  = Some (RingBuffer.entries rb')
  /\ RingBuffer.wf rb' /\ RingBuffer.sized rb'.
Proof.
  intros HM. revert rb. induction ops as [|o ops IH]; intros rb Hwf Hsz.
  - rewrite run_nil. by intros [= <- <-].
  - rewrite run_cons.
    destruct (RingBuffer.step o rb) as [[u1 rb1]|] eqn:Hs; [|done].
    destruct (step_refines _ _ _ _ HM Hwf Hsz Hs) as (Hf & Hwf1 & Hsz1).
    intros Hrun. simpl. rewrite Hf. simpl. by apply IH.
Qed.

(** The ring operations are defined wherever the FIFO's are: [enqueue]
    always, [pop] when something is queued. *)
Lemma step_defined o rb :
  0 < MAX_CMD_SIZE ->
  RingBuffer.wf rb -> RingBuffer.sized rb ->
  is_Some (RingBuffer.fifo_step o (RingBuffer.entries rb)) ->
  is_Some (RingBuffer.step o rb).
Proof.
  intros HM Hwf Hsz. destruct o as [cmd k p|].
  - intros _. rewrite step_enqueue.
    destruct (decide (RingBuffer.length rb = BUFSIZE)) as [Hfull|Hne].
    + by rewrite enqueue_full.
    + by destruct (enqueue_wf rb cmd k p HM Hwf Hsz Hne) as (b & _ & _ & ->).
  - simpl. pose proof (entries_length rb Hwf) as Hlen.
    destruct (RingBuffer.entries rb) as [|e l]; [by intros [? ?]|].
    intros _. rewrite pop_defined; [done|]. simpl in Hlen. lia.
Qed.

Lemma run_defined ops rb :
  0 < MAX_CMD_SIZE ->
  RingBuffer.wf rb -> RingBuffer.sized rb ->
  is_Some (RingBuffer.fifo_run ops (RingBuffer.entries rb)) ->
  is_Some (RingBuffer.run ops rb).
Proof.
  intros HM. revert rb. induction ops as [|o ops IH]; intros rb Hwf Hsz.
  - by rewrite run_nil.
  - simpl RingBuffer.fifo_run. rewrite run_cons.
    destruct (RingBuffer.fifo_step o (RingBuffer.entries rb)) as [l|] eqn:Hf;
      [|by intros [? ?]].
    destruct (step_defined o rb HM Hwf Hsz) as [[u rb1] Hs]; [by rewrite Hf|].
    rewrite Hs.
    destruct (step_refines _ _ _ _ HM Hwf Hsz Hs) as (Hf' & Hwf1 & Hsz1).
    rewrite Hf in Hf'. injection Hf' as ->. simpl. by apply IH.
Qed.

End ring_fifo.

(** The two conditions of [integrity] alone do not survive [pop] from a
    state whose read index lies outside the array; no run from the cleared
    ring reaches such a state ([run_in_range]). *)
Remark integrity_needs_index_r_in_range :
  let rb := RingBuffer.mk 1 5 2 (replicate 4 Examples.slot0) in
  @RingBuffer.integrity Examples.config rb
  /\ ~ @RingBuffer.integrity Examples.config
         (@RingBuffer.advance_pos Examples.config RingBuffer.IndexR (-1) rb).
Proof.
  split.
  - split; [reflexivity | simpl; lia].
  - intros [Hmod _]. vm_compute in Hmod. discriminate.
Qed.

(** ** The ring: [peek_next_command] *)

Lemma peek_next_command_inv rb c rb' :
  RingBuffer.peek_next_command rb = Some (c, rb') ->
  rb' = rb
  /\ array_get (RingBuffer.commands rb) (RingBuffer.index_r rb) = Some c.
Proof.
  unfold RingBuffer.peek_next_command. unfold_member.
  destruct (array_get _ _); [|done]. by intros [= <- <-].
Qed.

Lemma peek_next_command_defined rb c :
  array_get (RingBuffer.commands rb) (RingBuffer.index_r rb) = Some c ->
  RingBuffer.peek_next_command rb = Some (c, rb)
  /\ RingBuffer.peek_next_command_string rb
     = Some (CommandLine.buffer c, rb).
Proof.
  intros Hc. unfold RingBuffer.peek_next_command_string.
  unfold RingBuffer.peek_next_command. unfold_member. by rewrite Hc.
Qed.

Lemma queued_head `{MarlinConfig} rb :
  0 <= RingBuffer.index_r rb < BUFSIZE -> RingBuffer.length rb > 0 ->
  head (RingBuffer.queued rb)
  = Some (array_get (RingBuffer.commands rb) (RingBuffer.index_r rb)).
Proof.
  intros Hr Hlen. rewrite head_lookup, queued_lookup by lia.
  unfold RingBuffer.slot_at. simpl.
  by rewrite Z.add_0_r, Z.mod_small.
Qed.

Lemma wf_clear `{MarlinConfig} rb :
  0 < BUFSIZE <= 255 ->
  Z.of_nat (length (RingBuffer.commands rb)) = BUFSIZE ->
  RingBuffer.wf (RingBuffer.clear rb).
Proof. intros HB Hcs. split; [by apply clear_in_range | done]. Qed.

(** C8: [peek_next_command()] never changes the ring, and what it returns
    is the [CommandLine] stored at index [index_r].  On a well-formed ring
    with [length > 0] it is defined, [peek_next_command_string()] returns
    that command's buffer, and the command is the first of the queued slots;
    after any run of [enqueue] and [pop] from the cleared ring it is the
    oldest entry of the FIFO that the run describes. *)
Theorem peek_next_command_spec `{MarlinConfig} (rb : RingBuffer.t) :
  (forall c rb',
     RingBuffer.peek_next_command rb = Some (c, rb') ->
     rb' = rb
     /\ array_get (RingBuffer.commands rb) (RingBuffer.index_r rb) = Some c)
  /\ (RingBuffer.wf rb -> RingBuffer.length rb > 0 ->
      exists c,
        array_get (RingBuffer.commands rb) (RingBuffer.index_r rb) = Some c
        /\ RingBuffer.peek_next_command rb = Some (c, rb)
        /\ RingBuffer.peek_next_command_string rb
           = Some (CommandLine.buffer c, rb)
        /\ head (RingBuffer.queued rb) = Some (Some c))
  /\ (forall rb0 ops,
        0 < BUFSIZE <= 255 -> 0 < MAX_CMD_SIZE ->
        Z.of_nat (length (RingBuffer.commands rb0)) = BUFSIZE ->
        RingBuffer.sized rb0 ->
        RingBuffer.run ops (RingBuffer.clear rb0) = Some (tt, rb) ->
        RingBuffer.length rb > 0 ->
        exists c l,
          RingBuffer.peek_next_command rb = Some (c, rb)
          /\ RingBuffer.fifo_run ops [] = Some (RingBuffer.entry_of c :: l)).
Proof.
  split; [apply peek_next_command_inv|]. split.
  - intros Hwf Hlen. pose proof Hwf as [[Hr _] Hcs].
    destruct (array_get_is_Some (RingBuffer.commands rb)
                (RingBuffer.index_r rb)) as [c Hc]; [by rewrite Hcs|].
    exists c. split; [done|].
    destruct (peek_next_command_defined rb c Hc) as [-> ->].
    split; [done|]. split; [done|].
    by rewrite queued_head, Hc.
  - intros rb0 ops HB HM Hcs Hsz Hrun Hlen.
    destruct (run_refines HB ops (RingBuffer.clear rb0) tt rb HM)
      as (Hf & Hwf & _); [by apply wf_clear|done..|].
    rewrite entries_clear in Hf.
    destruct (entries_pop rb Hwf Hlen) as (c & Hc & He).
    eexists c, _. split; [by apply peek_next_command_defined|].
    by rewrite Hf, He.
Qed.

Lemma peek_next_command_spec_witness :
  let ops := [RingBuffer.Enqueue Examples.G28 true (-1);
              RingBuffer.Enqueue Examples.M84 false 0;
              RingBuffer.Pop;
              RingBuffer.Enqueue Examples.M110 false 1] in
  exists rb c l,
    @RingBuffer.run Examples.config ops (RingBuffer.clear Examples.ring0)
    = Some (tt, rb)
    /\ RingBuffer.peek_next_command rb = Some (c, rb)
    /\ @RingBuffer.fifo_run Examples.config ops []
       = Some (RingBuffer.entry_of c :: l)
    /\ RingBuffer.entry_of c = ([x4d; x38; x34], false, 0).
Proof.
  intros ops.
  destruct (@RingBuffer.run Examples.config ops
              (RingBuffer.clear Examples.ring0)) as [[[] rb]|] eqn:Hrun;
    [|vm_compute in Hrun; discriminate].
  assert (0 < @BUFSIZE Examples.config <= 255) as HB by (simpl; lia).
  assert (0 < @MAX_CMD_SIZE Examples.config) as HM by (simpl; lia).
  assert (@RingBuffer.sized Examples.config Examples.ring0) as Hsz
    by (repeat constructor).
  assert (RingBuffer.length rb > 0) as Hlen
    by (vm_compute in Hrun; injection Hrun as <-; simpl; lia).
  destruct (proj2 (proj2 (@peek_next_command_spec Examples.config rb))
              Examples.ring0 ops HB HM eq_refl Hsz Hrun Hlen)
    as (c & l & Hpeek & Hfifo).
  exists rb, c, l. split; [done|]. split; [done|]. split; [done|].
  vm_compute in Hrun. injection Hrun as <-.
  vm_compute in Hpeek. injection Hpeek as <-.
  vm_compute. reflexivity.
Defined.

(** ** C strings: [strncpy] *)

Lemma chars_app_stop s t :
  CString.NUL ∉ s -> head t = Some CString.NUL -> CString.chars (s ++ t) = s.
Proof.
  intros Hs Ht. destruct t as [|c t]; [done|]. injection Ht as ->.
  by apply chars_app_nul.
Qed.

Lemma chars_all s : CString.NUL ∉ s -> CString.chars s = s.
Proof.
  induction s as [|c s IH]; simpl; [done|].
  intros [Hc Hs]%not_elem_of_cons.
  assert (CString.is_nul c = false) as -> by (apply is_nul_false; congruence).
  by rewrite IH.
Qed.

(** The bytes [strncpy] stores are the source's characters, cut to [n], and
    NULs up to [n]. *)
Lemma strncpy_bytes_Some src n bs :
  CString.strncpy_bytes src n = Some bs ->
  bs = take n (CString.chars src)
       ++ replicate (n - length (CString.chars src)) CString.NUL.
Proof.
  revert src bs. induction n as [|n IH]; intros src bs; simpl.
  - by intros [= <-].
  - destruct src as [|c src]; [done|]. simpl.
    destruct (CString.is_nul c); simpl.
    + by intros [= <-].
    + destruct (CString.strncpy_bytes src n) as [cs|] eqn:Hcs; [|done].
      simpl. intros [= <-]. f_equal. by apply IH.
Qed.

Lemma strncpy_bytes_defined src n :
  CString.terminated src -> is_Some (CString.strncpy_bytes src n).
Proof.
  unfold CString.terminated. revert src.
  induction n as [|n IH]; intros src Hsrc; simpl; [done|].
  destruct src as [|c src]; [by apply elem_of_nil in Hsrc|].
  destruct (CString.is_nul c) eqn:Hc; [done|].
  apply is_nul_false in Hc. apply elem_of_cons in Hsrc as [?|Hsrc]; [done|].
  destruct (IH src Hsrc) as [cs ->]. done.
Qed.

Lemma strncpy_bytes_length src n bs :
  CString.strncpy_bytes src n = Some bs -> length bs = n.
Proof.
  intros ->%strncpy_bytes_Some.
  rewrite length_app, length_take, length_replicate. lia.
Qed.

(** The string left in [dest] by [strncpy(dest, src, n)] when the byte
    behind the [n] copied ones is NUL. *)
Lemma strncpy_chars dest src n dest' :
  CString.strncpy dest src n = Some dest' ->
  dest !! n = Some CString.NUL ->
  CString.chars dest' = take n (CString.chars src).
Proof.
  unfold CString.strncpy. case_decide as Hn; [|done].
  destruct (CString.strncpy_bytes src n) as [bs|] eqn:Hbs; [|done].
  simpl. intros [= <-] Hlast.
  apply strncpy_bytes_Some in Hbs as ->. rewrite <- (assoc_L (++)).
  apply chars_app_stop; [apply take_no_nul, chars_no_nul|].
  destruct (n - length (CString.chars src))%nat; simpl; [|done].
  by rewrite head_lookup, lookup_drop, Nat.add_0_r.
Qed.

(** A second [strncpy] of the same size hides the first one. *)
Lemma strncpy_strncpy dest a b n da dab :
  CString.strncpy dest a n = Some da ->
  CString.strncpy da b n = Some dab ->
  CString.strncpy dest b n = Some dab.
Proof.
  unfold CString.strncpy. case_decide as Hn; [|done].
  destruct (CString.strncpy_bytes a n) as [bs|] eqn:Ha; [|done].
  simpl. intros [= <-]. apply strncpy_bytes_length in Ha.
  rewrite decide_True by (rewrite length_app, length_drop; lia).
  destruct (CString.strncpy_bytes b n) as [bs'|]; [|done].
  simpl. intros [= <-]. by rewrite drop_app_length' by done.
Qed.

Lemma strncpy_defined dest src n :
  CString.terminated src -> (n <= length dest)%nat ->
  exists dest',
    CString.strncpy dest src n = Some dest'
    /\ length dest' = length dest
    /\ drop n dest' = drop n dest
    /\ take n dest'
       = take n (CString.chars src ++ replicate n CString.NUL).
Proof.
  intros Hsrc Hn. unfold CString.strncpy. rewrite decide_True by done.
  destruct (strncpy_bytes_defined src n Hsrc) as [bs Hbs]. rewrite Hbs.
  pose proof (strncpy_bytes_length _ _ _ Hbs) as Hlen.
  simpl. eexists. split; [done|]. split; [|split].
  - rewrite length_app, length_drop. lia.
  - by rewrite drop_app_length'.
  - rewrite take_app_length' by done.
    apply strncpy_bytes_Some in Hbs as ->.
    destruct (decide (n <= length (CString.chars src))%nat) as [Hle|Hgt].
    + replace (n - length (CString.chars src))%nat with 0%nat by lia.
      simpl. by rewrite app_nil_r, take_app_le.
    + rewrite take_ge by lia. rewrite take_app_ge by lia.
      by rewrite take_replicate, Nat.min_l by lia.
Qed.

(** ** The RAM injector: [inject] *)

Lemma inject_defined gcode q :
  CString.terminated gcode ->
  length (GCodeQueue.injected_commands q) = 64%nat ->
  exists b,
    GCodeQueue.inject gcode q
    = Some (tt, GCodeQueue.set_injected_commands b q)
    /\ CString.strncpy (GCodeQueue.injected_commands q) gcode 63 = Some b
    /\ length b = 64%nat
    /\ b !! 63%nat = GCodeQueue.injected_commands q !! 63%nat
    /\ take 63 b = take 63 (CString.chars gcode ++ replicate 63 CString.NUL).
Proof.
  intros Hg Hlen.
  destruct (strncpy_defined (GCodeQueue.injected_commands q) gcode 63 Hg)
    as (b & Hb & Hblen & Hdrop & Htake); [lia|].
  exists b. unfold GCodeQueue.inject. unfold_member. simpl.
  rewrite Hb. split; [done|]. split; [done|]. split; [lia|]. split; [|done].
  by rewrite <- (Nat.add_0_r 63), <- !lookup_drop, Hdrop.
Qed.

Lemma lookup_63_terminated (b : list byte) :
  b !! 63%nat = Some CString.NUL -> CString.terminated b.
Proof. intros Hb. by eapply list_elem_of_lookup_2. Qed.

(** C5: for every input string [gcode], [inject(gcode)] is defined on the
    64-byte scratch buffer; it writes the first 63 bytes only (byte 63 keeps
    its value), namely the characters of [gcode] cut to 63 and NULs behind
    them, and leaves the rest of the queue alone.  When byte 63 was NUL
    before the call, the buffer afterwards holds a NUL-terminated string:
    [gcode] itself if it is shorter than 63 characters, and otherwise its
    first 63 characters. *)
Theorem inject_spec (gcode : list byte) (q : GCodeQueue.t) :
  CString.terminated gcode ->
  length (GCodeQueue.injected_commands q) = 64%nat ->
  exists q',
    GCodeQueue.inject gcode q = Some (tt, q')
    /\ length (GCodeQueue.injected_commands q') = 64%nat
    /\ GCodeQueue.injected_commands q' !! 63%nat
       = GCodeQueue.injected_commands q !! 63%nat
    /\ take 63 (GCodeQueue.injected_commands q')
       = take 63 (CString.chars gcode ++ replicate 63 CString.NUL)
    /\ GCodeQueue.serial_state q' = GCodeQueue.serial_state q
    /\ GCodeQueue.ring_buffer q' = GCodeQueue.ring_buffer q
    /\ GCodeQueue.injected_commands_P q' = GCodeQueue.injected_commands_P q
    /\ (GCodeQueue.injected_commands q !! 63%nat = Some CString.NUL ->
        CString.terminated (GCodeQueue.injected_commands q')
        /\ CString.chars (GCodeQueue.injected_commands q')
           = take 63 (CString.chars gcode)
        /\ (CString.strlen (GCodeQueue.injected_commands q') <= 63)%nat
        /\ ((CString.strlen gcode < 63)%nat ->
            CString.chars (GCodeQueue.injected_commands q')
            = CString.chars gcode)
        /\ ((63 <= CString.strlen gcode)%nat ->
            CString.strlen (GCodeQueue.injected_commands q') = 63%nat)).
Proof.
  intros Hg Hlen.
  destruct (inject_defined gcode q Hg Hlen)
    as (b & -> & Hb & Hblen & Hlast & Htake).
  eexists. split; [done|]. simpl.
  split; [done|]. split; [done|]. split; [done|].
  split; [done|]. split; [done|]. split; [done|].
  intros Hnul.
  pose proof (strncpy_chars _ _ _ _ Hb Hnul) as Hchars.
  split; [apply lookup_63_terminated; congruence|]. split; [done|].
  unfold CString.strlen. rewrite Hchars, length_take.
  split; [lia|]. split; intros Hs; [by rewrite take_ge by lia | lia].
Qed.

Lemma inject_spec_witness :
  exists q',
    GCodeQueue.inject Examples.long_gcode Examples.queue0 = Some (tt, q')
    /\ CString.terminated (GCodeQueue.injected_commands q')
    /\ CString.chars (GCodeQueue.injected_commands q') = replicate 63 x47.
Proof.
  assert (CString.terminated Examples.long_gcode) as Hg.
  { apply (list_elem_of_lookup_2 _ 70). reflexivity. }
  destruct (inject_spec Examples.long_gcode Examples.queue0 Hg eq_refl)
    as (q' & Hq' & _ & _ & _ & _ & _ & _ & Hnul).
  destruct (Hnul eq_refl) as (Hterm & Hchars & _).
  exists q'. split; [done|]. split; [done|].
  rewrite Hchars. vm_compute. reflexivity.
Defined.

(** C6: a second [inject_P] or [inject] replaces what the first one left.
    [inject_P(a)] then [inject_P(b)] is [inject_P(b)], and the pointer is
    [b].  [inject(a)] then [inject(b)] leaves the whole queue, scratch
    buffer included, exactly as [inject(b)] alone does, whatever the lengths
    of [a] and [b] are; with byte 63 of the buffer NUL, the string in the
    buffer is [b] cut to 63 characters. *)
Theorem inject_replaces (a b : option (list byte)) (sa sb : list byte)
    (q : GCodeQueue.t) :
  GCodeQueue.inject_P b (GCodeQueue.inject_P a q) = GCodeQueue.inject_P b q
  /\ GCodeQueue.injected_commands_P
       (GCodeQueue.inject_P b (GCodeQueue.inject_P a q)) = b
  /\ (CString.terminated sa -> CString.terminated sb ->
      length (GCodeQueue.injected_commands q) = 64%nat ->
      exists qa qab,
        GCodeQueue.inject sa q = Some (tt, qa)
        /\ GCodeQueue.inject sb qa = Some (tt, qab)
        /\ GCodeQueue.inject sb q = Some (tt, qab)
        /\ (GCodeQueue.injected_commands q !! 63%nat = Some CString.NUL ->
            CString.chars (GCodeQueue.injected_commands qab)
            = take 63 (CString.chars sb))).
Proof.
  split; [done|]. split; [done|]. intros Ha Hb Hlen.
  destruct (inject_defined sa q Ha Hlen)
    as (ba & Hqa & Hsa & Hbalen & Hlast & _).
  destruct (inject_defined sb (GCodeQueue.set_injected_commands ba q) Hb)
    as (bab & Hqab & Hsab & _); [done|].
  simpl in Hsab.
  pose proof (strncpy_strncpy _ _ _ _ _ _ Hsa Hsab) as Hsb.
  eexists _, _. split; [exact Hqa|]. split; [exact Hqab|]. split.
  - unfold GCodeQueue.inject. unfold_member. simpl. by rewrite Hsb.
  - simpl. intros Hnul. by eapply strncpy_chars.
Qed.

Lemma inject_replaces_witness :
  exists qa qab,
    GCodeQueue.inject Examples.long_gcode Examples.queue0 = Some (tt, qa)
    /\ GCodeQueue.inject Examples.G28 qa = Some (tt, qab)
    /\ GCodeQueue.inject Examples.G28 Examples.queue0 = Some (tt, qab)
    /\ CString.chars (GCodeQueue.injected_commands qab) = [x47; x32; x38].
Proof.
  assert (CString.terminated Examples.long_gcode) as Ha.
  { apply (list_elem_of_lookup_2 _ 70). reflexivity. }
  assert (CString.terminated Examples.G28) as Hb.
  { apply (list_elem_of_lookup_2 _ 3). reflexivity. }
  destruct (proj2 (proj2 (inject_replaces None None Examples.long_gcode
                            Examples.G28 Examples.queue0)) Ha Hb eq_refl)
    as (qa & qab & Hqa & Hqab & Hq & Hchars).
  exists qa, qab. split; [done|]. split; [done|]. split; [done|].
  by rewrite (Hchars eq_refl).
Defined.

(** ** [set_current_line_number] *)

Lemma command_port_slot `{MarlinConfig} rb c :
  array_get (RingBuffer.commands rb) (RingBuffer.index_r rb) = Some c ->
  RingBuffer.command_port rb
  = Some (if HAS_MULTI_SERIAL then CommandLine.port c else 0).
Proof.
  intros Hc. unfold RingBuffer.command_port.
  destruct HAS_MULTI_SERIAL; [|done]. by rewrite Hc.
Qed.

Lemma set_current_line_number_port `{MarlinConfig} n q p st :
  RingBuffer.command_port (GCodeQueue.ring_buffer q) = Some p ->
  array_get (GCodeQueue.serial_state q) p = Some st ->
  GCodeQueue.set_current_line_number n q
  = Some (tt, GCodeQueue.set_serial_state
                (<[Z.to_nat p := SerialState.set_last_N n st]>
                   (GCodeQueue.serial_state q)) q).
Proof.
  intros Hp Hst. unfold GCodeQueue.set_current_line_number. unfold_member.
  rewrite Hp, Hst. by rewrite array_set_Some by eauto using array_get_lt.
Qed.

(** A command that carries the tag -1 ("not from serial") names no serial
    state: the array access is out of bounds. *)
Lemma set_current_line_number_no_port `{MarlinConfig} n q p :
  RingBuffer.command_port (GCodeQueue.ring_buffer q) = Some p ->
  p < 0 ->
  GCodeQueue.set_current_line_number n q = None.
Proof.
  intros Hp Hneg. unfold GCodeQueue.set_current_line_number. unfold_member.
  rewrite Hp. unfold array_get. by rewrite decide_False by lia.
Qed.

(** C7: let [c] be the command at the ring's read position and [p] the port
    [command_port()] reports for it ([c]'s port tag under
    [HAS_MULTI_SERIAL], else 0), with [p] one of the [NUM_SERIAL] ports.
    Then [set_current_line_number(n)] sets [last_N] of [serial_state[p]] to
    [n], keeps the other fields of that entry, keeps every other entry of
    [serial_state], and changes nothing outside [serial_state]. *)
Theorem set_current_line_number_spec `{MarlinConfig}
    (n : Z) (q : GCodeQueue.t) (c : CommandLine.t) :
  let p := if HAS_MULTI_SERIAL then CommandLine.port c else 0 in
  array_get (RingBuffer.commands (GCodeQueue.ring_buffer q))
    (RingBuffer.index_r (GCodeQueue.ring_buffer q)) = Some c ->
  Z.of_nat (length (GCodeQueue.serial_state q)) = NUM_SERIAL ->
  0 <= p < NUM_SERIAL ->
  RingBuffer.command_port (GCodeQueue.ring_buffer q) = Some p
  /\ exists q' st,
       GCodeQueue.set_current_line_number n q = Some (tt, q')
       /\ array_get (GCodeQueue.serial_state q) p = Some st
       /\ array_get (GCodeQueue.serial_state q') p
          = Some (SerialState.mk n (SerialState.count st)
                    (SerialState.line_buffer st) (SerialState.input_state st))
       /\ (forall j, j <> p ->
             array_get (GCodeQueue.serial_state q') j
             = array_get (GCodeQueue.serial_state q) j)
       /\ length (GCodeQueue.serial_state q')
          = length (GCodeQueue.serial_state q)
       /\ GCodeQueue.ring_buffer q' = GCodeQueue.ring_buffer q
       /\ GCodeQueue.injected_commands_P q' = GCodeQueue.injected_commands_P q
       /\ GCodeQueue.injected_commands q' = GCodeQueue.injected_commands q.
Proof.
  intros p Hc Hlen Hp.
  pose proof (command_port_slot _ _ Hc) as Hport. fold p in Hport.
  split; [done|].
  destruct (array_get_is_Some (GCodeQueue.serial_state q) p) as [st Hst];
    [lia|].
  assert (array_set (GCodeQueue.serial_state q) p
            (SerialState.set_last_N n st)
          = Some (<[Z.to_nat p := SerialState.set_last_N n st]>
                    (GCodeQueue.serial_state q))) as Hset
    by (apply array_set_Some; lia).
  eexists _, st. split; [by apply set_current_line_number_port|]. simpl.
  split; [done|]. split; [by eapply array_get_set_eq|].
  split; [intros j Hj; by eapply array_get_set_ne|].
  split; [apply length_insert|done].
Qed.

Lemma set_current_line_number_spec_witness :
  exists q',
    @GCodeQueue.set_current_line_number Examples.config 999 Examples.queue1
    = Some (tt, q')
    /\ array_get (GCodeQueue.serial_state q') 1
       = Some (SerialState.mk 999 0 (Examples.zeroed 96) 0)
    /\ array_get (GCodeQueue.serial_state q') 0 = Some Examples.serial0.
Proof.
  destruct (@set_current_line_number_spec Examples.config 999 Examples.queue1
              (CommandLine.mk (Examples.M110 ++ Examples.zeroed 91) false 1))
    as (_ & q' & st & Hq' & Hst & Hst' & Hother & _).
  - reflexivity.
  - reflexivity.
  - simpl. lia.
  - exists q'. split; [exact Hq'|].
    injection Hst as <-. split; [exact Hst'|].
    rewrite (Hother 0) by (simpl; lia). reflexivity.
Defined.

(** * Further properties of queue.h *)

(** ** [advance_pos] as a counter modulo [BUFSIZE] *)

Section advance_pos_counter.
Context `{MarlinConfig}.

Lemma advance_pos_index p inc rb :
  p <> RingBuffer.Length ->
  RingBuffer.load p (RingBuffer.advance_pos p inc rb)
  = if decide (to_uint8 (RingBuffer.load p rb + 1) >= BUFSIZE) then 0
    else to_uint8 (RingBuffer.load p rb + 1).
Proof.
  intros Hp. unfold RingBuffer.advance_pos.
  destruct p; [done| |]; simpl; case_decide; done.
Qed.

Lemma advance_pos_length p inc rb :
  p <> RingBuffer.Length ->
  RingBuffer.length (RingBuffer.advance_pos p inc rb)
  = to_uint8 (RingBuffer.length rb + inc).
Proof.
  intros Hp. unfold RingBuffer.advance_pos.
  destruct p; [done| |]; simpl; case_decide; done.
Qed.

Lemma advance_pos_commands p inc rb :
  RingBuffer.commands (RingBuffer.advance_pos p inc rb)
  = RingBuffer.commands rb.
Proof.
  unfold RingBuffer.advance_pos. destruct p; simpl; case_decide; done.
Qed.

Lemma advance_w_index_r inc rb :
  RingBuffer.index_r (RingBuffer.advance_pos RingBuffer.IndexW inc rb)
  = RingBuffer.index_r rb.
Proof. unfold RingBuffer.advance_pos. simpl. case_decide; done. Qed.

Lemma advance_r_index_w inc rb :
  RingBuffer.index_w (RingBuffer.advance_pos RingBuffer.IndexR inc rb)
  = RingBuffer.index_w rb.
Proof. unfold RingBuffer.advance_pos. simpl. case_decide; done. Qed.

Lemma advance_w_index inc rb :
  RingBuffer.index_w (RingBuffer.advance_pos RingBuffer.IndexW inc rb)
  = if decide (to_uint8 (RingBuffer.index_w rb + 1) >= BUFSIZE) then 0
    else to_uint8 (RingBuffer.index_w rb + 1).
Proof. by apply (advance_pos_index RingBuffer.IndexW). Qed.

Lemma advance_r_index inc rb :
  RingBuffer.index_r (RingBuffer.advance_pos RingBuffer.IndexR inc rb)
  = if decide (to_uint8 (RingBuffer.index_r rb + 1) >= BUFSIZE) then 0
    else to_uint8 (RingBuffer.index_r rb + 1).
Proof. by apply (advance_pos_index RingBuffer.IndexR). Qed.

Lemma advance_pos_index_mod p inc rb :
  0 < BUFSIZE <= 256 -> p <> RingBuffer.Length ->
  0 <= RingBuffer.load p rb < BUFSIZE ->
  RingBuffer.load p (RingBuffer.advance_pos p inc rb)
  = (RingBuffer.load p rb + 1) mod BUFSIZE.
Proof.
  intros HB Hp Hv. rewrite advance_pos_index by done.
  destruct (decide (RingBuffer.load p rb + 1 = 256)) as [H256|Hlt].
  - assert (BUFSIZE = 256) as HB256 by lia.
    rewrite H256, HB256. unfold to_uint8. rewrite Z.mod_same by lia.
    by rewrite decide_False by lia.
  - rewrite to_uint8_small by (unfold is_uint8; lia).
    case_decide.
    + replace (RingBuffer.load p rb + 1) with BUFSIZE by lia.
      by rewrite Z.mod_same by lia.
    + by rewrite Z.mod_small by lia.
Qed.

Lemma advance_pos_iter_fields p inc (k : nat) rb :
  0 < BUFSIZE <= 256 -> p <> RingBuffer.Length ->
  0 <= RingBuffer.load p rb < BUFSIZE ->
  is_uint8 (RingBuffer.length rb) ->
  RingBuffer.load p (Nat.iter k (RingBuffer.advance_pos p inc) rb)
  = (RingBuffer.load p rb + Z.of_nat k) mod BUFSIZE
  /\ RingBuffer.length (Nat.iter k (RingBuffer.advance_pos p inc) rb)
     = to_uint8 (RingBuffer.length rb + Z.of_nat k * inc)
  /\ RingBuffer.commands (Nat.iter k (RingBuffer.advance_pos p inc) rb)
     = RingBuffer.commands rb.
Proof.
  intros HB Hp Hv Hlen. induction k as [|k (IHp & IHl & IHc)].
  - simpl. rewrite Z.add_0_r, Z.mod_small by done.
    split; [done|]. split; [|done].
    by rewrite Z.add_0_r, to_uint8_small.
  - rewrite Nat.iter_succ. split; [|split].
    + rewrite advance_pos_index_mod; [|done..|].
      * rewrite IHp, Zplus_mod_idemp_l. f_equal. lia.
      * rewrite IHp. apply Z.mod_pos_bound. lia.
    + rewrite advance_pos_length, IHl by done. unfold to_uint8.
      rewrite Zplus_mod_idemp_l. f_equal. lia.
    + by rewrite advance_pos_commands.
Qed.

End advance_pos_counter.

(** X1: whatever the state and the increment, [advance_pos] on [index_w]
    (or on [index_r]) leaves that index inside [0, BUFSIZE) and inside
    [uint8_t], stores [length] as a [uint8_t], and touches neither the
    other index nor the command slots. *)
Theorem advance_pos_index_in_range `{MarlinConfig}
    (inc : Z) (rb : RingBuffer.t) :
  0 < BUFSIZE ->
  (let rb' := RingBuffer.advance_pos RingBuffer.IndexW inc rb in
   0 <= RingBuffer.index_w rb' < BUFSIZE
   /\ is_uint8 (RingBuffer.index_w rb')
   /\ is_uint8 (RingBuffer.length rb')
   /\ RingBuffer.index_r rb' = RingBuffer.index_r rb
   /\ RingBuffer.commands rb' = RingBuffer.commands rb)
  /\ (let rb' := RingBuffer.advance_pos RingBuffer.IndexR inc rb in
      0 <= RingBuffer.index_r rb' < BUFSIZE
      /\ is_uint8 (RingBuffer.index_r rb')
      /\ is_uint8 (RingBuffer.length rb')
      /\ RingBuffer.index_w rb' = RingBuffer.index_w rb
      /\ RingBuffer.commands rb' = RingBuffer.commands rb).
Proof.
  intros HB.
  assert (forall v,
            let v' := if decide (to_uint8 (v + 1) >= BUFSIZE) then 0
                      else to_uint8 (v + 1) in
            0 <= v' < BUFSIZE /\ is_uint8 v') as Hidx.
  { intros v. pose proof (to_uint8_range (v + 1)) as Hu. simpl.
    case_decide; unfold is_uint8 in *; lia. }
  split; cbv zeta.
  - rewrite advance_w_index.
    rewrite (advance_pos_length RingBuffer.IndexW) by done.
    rewrite advance_w_index_r, advance_pos_commands.
    destruct (Hidx (RingBuffer.index_w rb)) as [? ?].
    split; [done|]. split; [done|]. split; [apply to_uint8_range|]. done.
  - rewrite advance_r_index.
    rewrite (advance_pos_length RingBuffer.IndexR) by done.
    rewrite advance_r_index_w, advance_pos_commands.
    destruct (Hidx (RingBuffer.index_r rb)) as [? ?].
    split; [done|]. split; [done|]. split; [apply to_uint8_range|]. done.
Qed.

Lemma advance_pos_index_in_range_witness :
  let rb := RingBuffer.mk 200 77 9 Cases.slots in
  RingBuffer.index_w
    (@RingBuffer.advance_pos Examples.config RingBuffer.IndexW 100 rb) = 0
  /\ RingBuffer.index_r
       (@RingBuffer.advance_pos Examples.config RingBuffer.IndexR 100 rb) = 0
  /\ is_uint8 (RingBuffer.length
                 (@RingBuffer.advance_pos Examples.config RingBuffer.IndexW
                    100 rb)).
Proof.
  intros rb.
  assert (0 < @BUFSIZE Examples.config) as HB by (simpl; lia).
  destruct (@advance_pos_index_in_range Examples.config 100 rb HB)
    as [(_ & _ & Hl & _) _].
  split; [reflexivity|]. split; [reflexivity|]. exact Hl.
Defined.

(** X2: for [0 < BUFSIZE <= 256], an index that starts inside
    [0, BUFSIZE) is, after [k] calls of [advance_pos] on it,
    [(index + k) mod BUFSIZE]; [length] is then [length + k * inc] as a
    [uint8_t], and the slots are untouched.  So [BUFSIZE] calls bring the
    index back to where it started. *)
Theorem advance_pos_iter `{MarlinConfig}
    (p : RingBuffer.member) (inc : Z) (k : nat) (rb : RingBuffer.t) :
  0 < BUFSIZE <= 256 -> p <> RingBuffer.Length ->
  0 <= RingBuffer.load p rb < BUFSIZE ->
  is_uint8 (RingBuffer.length rb) ->
  RingBuffer.load p (Nat.iter k (RingBuffer.advance_pos p inc) rb)
  = (RingBuffer.load p rb + Z.of_nat k) mod BUFSIZE
  /\ RingBuffer.length (Nat.iter k (RingBuffer.advance_pos p inc) rb)
     = to_uint8 (RingBuffer.length rb + Z.of_nat k * inc)
  /\ RingBuffer.commands (Nat.iter k (RingBuffer.advance_pos p inc) rb)
     = RingBuffer.commands rb
  /\ RingBuffer.load p
       (Nat.iter (Z.to_nat BUFSIZE) (RingBuffer.advance_pos p inc) rb)
     = RingBuffer.load p rb.
Proof.
  intros HB Hp Hv Hlen.
  destruct (advance_pos_iter_fields p inc k rb HB Hp Hv Hlen)
    as (Hi & Hl & Hc).
  split; [done|]. split; [done|]. split; [done|].
  destruct (advance_pos_iter_fields p inc (Z.to_nat BUFSIZE) rb HB Hp Hv Hlen)
    as (-> & _ & _).
  rewrite Z2Nat.id by lia.
  replace (RingBuffer.load p rb + BUFSIZE)
    with (RingBuffer.load p rb + 1 * BUFSIZE) by lia.
  rewrite Z_mod_plus_full. by apply Z.mod_small.
Qed.

Lemma advance_pos_iter_witness :
  RingBuffer.load RingBuffer.IndexW
    (Nat.iter 6 (@RingBuffer.advance_pos Examples.config RingBuffer.IndexW 0)
       Cases.ring_two)
  = (1 + 6) mod 4
  /\ RingBuffer.load RingBuffer.IndexW
       (Nat.iter 4
          (@RingBuffer.advance_pos Examples.config RingBuffer.IndexW 0)
          Cases.ring_two)
     = 1.
Proof.
  destruct (@advance_pos_iter Examples.config RingBuffer.IndexW 0 6
              Cases.ring_two) as (H6 & _ & _ & H4).
  - simpl. lia.
  - discriminate.
  - simpl. lia.
  - unfold is_uint8. simpl. lia.
  - split; [exact H6 | exact H4].
Defined.

(** ** [advance_pos]: order of calls, and what it does not guard *)

Lemma advance_w_record `{MarlinConfig} inc rb :
  RingBuffer.advance_pos RingBuffer.IndexW inc rb
  = RingBuffer.mk (to_uint8 (RingBuffer.length rb + inc))
      (RingBuffer.index_r rb)
      (if decide (to_uint8 (RingBuffer.index_w rb + 1) >= BUFSIZE) then 0
       else to_uint8 (RingBuffer.index_w rb + 1))
      (RingBuffer.commands rb).
Proof. unfold RingBuffer.advance_pos. simpl. by case_decide. Qed.

Lemma advance_r_record `{MarlinConfig} inc rb :
  RingBuffer.advance_pos RingBuffer.IndexR inc rb
  = RingBuffer.mk (to_uint8 (RingBuffer.length rb + inc))
      (if decide (to_uint8 (RingBuffer.index_r rb + 1) >= BUFSIZE) then 0
       else to_uint8 (RingBuffer.index_r rb + 1))
      (RingBuffer.index_w rb)
      (RingBuffer.commands rb).
Proof. unfold RingBuffer.advance_pos. simpl. by case_decide. Qed.

(** X3: a call of [advance_pos] on [index_w] and one on [index_r] can be
    swapped, from every state and for all increments; and after a [+1] on
    [index_w] and a [-1] on [index_r] a [uint8_t] [length] is what it was. *)
Theorem advance_pos_commute `{MarlinConfig} (a b : Z) (rb : RingBuffer.t) :
  RingBuffer.advance_pos RingBuffer.IndexW a
    (RingBuffer.advance_pos RingBuffer.IndexR b rb)
  = RingBuffer.advance_pos RingBuffer.IndexR b
      (RingBuffer.advance_pos RingBuffer.IndexW a rb)
  /\ (is_uint8 (RingBuffer.length rb) ->
      RingBuffer.length
        (RingBuffer.advance_pos RingBuffer.IndexR (-1)
           (RingBuffer.advance_pos RingBuffer.IndexW 1 rb))
      = RingBuffer.length rb).
Proof.
  split.
  - rewrite !advance_w_record, !advance_r_record. simpl. f_equal.
    unfold to_uint8. rewrite !Zplus_mod_idemp_l. f_equal. lia.
  - intros Hlen. rewrite !advance_pos_length by done.
    unfold to_uint8. rewrite Zplus_mod_idemp_l.
    replace (RingBuffer.length rb + 1 + -1) with (RingBuffer.length rb) by lia.
    by apply Z.mod_small.
Qed.

Lemma advance_pos_commute_witness :
  RingBuffer.length
    (@RingBuffer.advance_pos Examples.config RingBuffer.IndexR (-1)
       (@RingBuffer.advance_pos Examples.config RingBuffer.IndexW 1
          Cases.ring_two))
  = 2.
Proof.
  refine (proj2 (@advance_pos_commute Examples.config 1 (-1) Cases.ring_two) _).
  unfold is_uint8. simpl. lia.
Defined.

(** X4: [advance_pos] does not guard against underflow.  Called on
    [index_r] with [-1] when [length] is 0, it stores 255 in [length]; for
    [0 < BUFSIZE < 255] the ring then reports [full()] and [occupied()], and
    [0 <= length <= BUFSIZE] no longer holds. *)
Theorem advance_pos_underflow `{MarlinConfig} (rb : RingBuffer.t) :
  0 < BUFSIZE < 255 -> RingBuffer.length rb = 0 ->
  let rb' := RingBuffer.advance_pos RingBuffer.IndexR (-1) rb in
  RingBuffer.length rb' = 255
  /\ RingBuffer.full_default rb' = true
  /\ RingBuffer.occupied rb' = true
  /\ ~ RingBuffer.integrity rb'.
Proof.
  intros HB Hlen rb'.
  assert (RingBuffer.length rb' = 255) as Hl.
  { unfold rb'. rewrite advance_pos_length, Hlen by done. reflexivity. }
  split; [done|]. split; [|split].
  - unfold RingBuffer.full_default. apply full_spec. rewrite Hl.
    rewrite to_uint8_small by (unfold is_uint8; lia). lia.
  - unfold RingBuffer.occupied. apply bool_decide_eq_true. lia.
  - intros [_ Hr]. lia.
Qed.

Lemma advance_pos_underflow_witness :
  let rb' := @RingBuffer.advance_pos Examples.config RingBuffer.IndexR (-1)
               Cases.ring_empty in
  RingBuffer.length rb' = 255
  /\ @RingBuffer.full_default Examples.config rb' = true
  /\ RingBuffer.occupied rb' = true
  /\ ~ @RingBuffer.integrity Examples.config rb'.
Proof.
  apply (@advance_pos_underflow Examples.config Cases.ring_empty).
  - simpl. lia.
  - reflexivity.
Defined.

(** X5: [advance_pos] does not guard against overflow either.  Called on
    [index_w] with [+1] when [length] is [BUFSIZE] (and
    [0 < BUFSIZE < 255]), it stores [BUFSIZE + 1] in [length], so
    [0 <= length <= BUFSIZE] no longer holds: the caller has to test
    [full()] first. *)
Theorem advance_pos_overflow `{MarlinConfig} (rb : RingBuffer.t) :
  0 < BUFSIZE < 255 -> RingBuffer.length rb = BUFSIZE ->
  let rb' := RingBuffer.advance_pos RingBuffer.IndexW 1 rb in
  RingBuffer.full_default rb = true
  /\ RingBuffer.length rb' = BUFSIZE + 1
  /\ ~ RingBuffer.integrity rb'.
Proof.
  intros HB Hlen rb'.
  assert (RingBuffer.length rb' = BUFSIZE + 1) as Hl.
  { unfold rb'. rewrite advance_pos_length, Hlen by done.
    apply to_uint8_small. unfold is_uint8. lia. }
  split; [|split; [done|]].
  - unfold RingBuffer.full_default. apply full_spec.
    rewrite to_uint8_small by (unfold is_uint8; lia). lia.
  - intros [_ Hr]. lia.
Qed.

Lemma advance_pos_overflow_witness :
  let rb' := @RingBuffer.advance_pos Examples.config RingBuffer.IndexW 1
               Cases.ring_full in
  @RingBuffer.full_default Examples.config Cases.ring_full = true
  /\ RingBuffer.length rb' = 4 + 1
  /\ ~ @RingBuffer.integrity Examples.config rb'.
Proof.
  apply (@advance_pos_overflow Examples.config Cases.ring_full).
  - simpl. lia.
  - reflexivity.
Defined.

(** ** [full] *)

Section full_room.
Context `{MarlinConfig}.
Hypothesis BUFSIZE_uint8 : 0 < BUFSIZE <= 255.

Lemma advance_w_iter_room (k : nat) rb :
  RingBuffer.integrity rb ->
  RingBuffer.length rb + Z.of_nat k <= BUFSIZE ->
  let rb' := Nat.iter k (RingBuffer.advance_pos RingBuffer.IndexW 1) rb in
  RingBuffer.integrity rb'
  /\ RingBuffer.length rb' = RingBuffer.length rb + Z.of_nat k
  /\ RingBuffer.index_r rb' = RingBuffer.index_r rb.
Proof.
  intros Hi. induction k as [|k IH]; intros Hroom.
  { simpl. split; [done|]. split; [lia|done]. }
  destruct IH as (IHi & IHl & IHr); [lia|].
  cbv zeta. rewrite Nat.iter_succ.
  split; [apply advance_w_integrity; [done..|lia]|].
  rewrite advance_w_index_r. split; [|done].
  rewrite (advance_pos_length RingBuffer.IndexW) by done. rewrite IHl.
  rewrite to_uint8_small; [lia|]. destruct Hi as [_ ?]. unfold is_uint8. lia.
Qed.

End full_room.

(** X6: [full(n)] false means room for [n] commands.  On a ring with
    [(index_r + length) mod BUFSIZE = index_w] and [0 <= length <= BUFSIZE],
    if [full(n)] is false then [n] calls of [advance_pos] on [index_w] with
    [+1] keep those two conditions, add exactly [n] to [length] (no
    [uint8_t] wrap) and leave [index_r] alone. *)
Theorem not_full_room `{MarlinConfig} (n : nat) (rb : RingBuffer.t) :
  0 < BUFSIZE <= 255 -> Z.of_nat n <= 255 ->
  RingBuffer.integrity rb ->
  RingBuffer.full (Z.of_nat n) rb = false ->
  let rb' := Nat.iter n (RingBuffer.advance_pos RingBuffer.IndexW 1) rb in
  RingBuffer.integrity rb'
  /\ RingBuffer.length rb' = RingBuffer.length rb + Z.of_nat n
  /\ RingBuffer.length rb' <= BUFSIZE
  /\ RingBuffer.index_r rb' = RingBuffer.index_r rb.
Proof.
  intros HB Hn Hi Hfull.
  apply not_true_iff_false in Hfull. rewrite full_spec in Hfull.
  rewrite to_uint8_small in Hfull by (unfold is_uint8; lia).
  destruct (advance_w_iter_room HB n rb Hi) as (Hi' & Hl & Hr); [lia|].
  cbv zeta. split; [done|]. split; [done|]. split; [lia|done].
Qed.

Lemma not_full_room_witness :
  let rb' := Nat.iter 2
               (@RingBuffer.advance_pos Examples.config RingBuffer.IndexW 1)
               Cases.ring_two in
  @RingBuffer.integrity Examples.config rb'
  /\ RingBuffer.length rb' = 2 + 2
  /\ RingBuffer.length rb' <= 4
  /\ RingBuffer.index_r rb' = 3.
Proof.
  apply (@not_full_room Examples.config 2 Cases.ring_two).
  - simpl. lia.
  - lia.
  - split; [reflexivity | simpl; lia].
  - reflexivity.
Defined.

(** X7: [full] is monotone in its argument: if there is no room for [n]
    commands there is none for [m >= n] (both within [uint8_t]). *)
Theorem full_monotone `{MarlinConfig} (n m : Z) (rb : RingBuffer.t) :
  0 <= n <= m -> m <= 255 ->
  RingBuffer.full n rb = true -> RingBuffer.full m rb = true.
Proof.
  intros Hnm Hm. rewrite !full_spec.
  rewrite !to_uint8_small by (unfold is_uint8; lia). lia.
Qed.

Lemma full_monotone_witness :
  @RingBuffer.full Examples.config 4 Cases.ring_two = true.
Proof.
  apply (@full_monotone Examples.config 3 4 Cases.ring_two).
  - lia.
  - lia.
  - reflexivity.
Defined.

(** X8: for [0 < BUFSIZE <= 255] and a [length] that is not negative,
    [full(BUFSIZE)] is [occupied()]; a ring that reports [full()] does not
    report [empty()]; and [full(0)] is false as long as
    [length <= BUFSIZE]. *)
Theorem full_occupied `{MarlinConfig} (rb : RingBuffer.t) :
  0 < BUFSIZE <= 255 -> 0 <= RingBuffer.length rb ->
  RingBuffer.full BUFSIZE rb = RingBuffer.occupied rb
  /\ (RingBuffer.full_default rb = true -> RingBuffer.empty rb = false)
  /\ (RingBuffer.length rb <= BUFSIZE -> RingBuffer.full 0 rb = false).
Proof.
  intros HB Hlen. split; [|split].
  - unfold RingBuffer.full, RingBuffer.occupied.
    rewrite to_uint8_small by (unfold is_uint8; lia).
    apply bool_decide_ext. lia.
  - unfold RingBuffer.full_default. rewrite full_spec.
    rewrite to_uint8_small by (unfold is_uint8; lia).
    intros Hf. apply not_true_iff_false. rewrite empty_spec. lia.
  - intros Hle. apply not_true_iff_false. rewrite full_spec.
    rewrite to_uint8_small by (unfold is_uint8; lia). lia.
Qed.

Lemma full_occupied_witness :
  @RingBuffer.full Examples.config 4 Cases.ring_two
  = RingBuffer.occupied Cases.ring_two
  /\ @RingBuffer.full Examples.config 0 Cases.ring_full = false.
Proof.
  split.
  - refine (proj1 (@full_occupied Examples.config Cases.ring_two _ _)).
    + simpl. lia.
    + simpl. lia.
  - refine (proj2 (proj2 (@full_occupied Examples.config Cases.ring_full _ _))
              _).
    + simpl. lia.
    + simpl. lia.
    + simpl. lia.
Defined.

(** ** The injectors and [has_commands_queued] *)

Lemma chars_head_nul s : head s = Some CString.NUL -> CString.chars s = [].
Proof. destruct s as [|c s]; [done|]. by intros [= ->]. Qed.

Lemma chars_head c s :
  head s = Some c -> c <> CString.NUL -> head (CString.chars s) = Some c.
Proof.
  destruct s as [|c' s]; [done|]. intros [= ->] Hc. simpl.
  by assert (CString.is_nul c = false) as -> by by apply is_nul_false.
Qed.

(** X9: [inject] of a string whose first character is not NUL is seen at
    once: afterwards [injected_commands[0]] is that character and
    [has_commands_queued()] is true, whatever the ring and the ROM injector
    hold. *)
Theorem inject_pending (gcode : list byte) (c : byte) (q : GCodeQueue.t) :
  CString.terminated gcode ->
  length (GCodeQueue.injected_commands q) = 64%nat ->
  head gcode = Some c -> c <> CString.NUL ->
  exists q',
    GCodeQueue.inject gcode q = Some (tt, q')
    /\ GCodeQueue.injected_commands q' !! 0%nat = Some c
    /\ GCodeQueue.has_commands_queued q' = true.
Proof.
  intros Hg Hlen Hhd Hc.
  destruct (inject_defined gcode q Hg Hlen) as (b & -> & _ & _ & _ & Htake).
  assert (b !! 0%nat = Some c) as Hb0.
  { rewrite <- (lookup_take_lt b 63 0) by lia. rewrite Htake.
    rewrite lookup_take_lt by lia.
    pose proof (chars_head c gcode Hhd Hc) as Hch.
    destruct (CString.chars gcode) as [|c' cs]; [done|].
    by injection Hch as ->. }
  eexists. split; [done|]. simpl. split; [done|].
  apply has_commands_queued_spec. right. right. by exists c.
Qed.

Lemma inject_pending_witness :
  exists q',
    GCodeQueue.inject Examples.G28 Examples.queue0 = Some (tt, q')
    /\ GCodeQueue.injected_commands q' !! 0%nat = Some x47
    /\ GCodeQueue.has_commands_queued q' = true.
Proof.
  apply (inject_pending Examples.G28 x47 Examples.queue0).
  - apply (list_elem_of_lookup_2 _ 3). reflexivity.
  - reflexivity.
  - reflexivity.
  - discriminate.
Defined.

(** X10: [inject] of the empty string drains the RAM injector: bytes 0 to
    62 of the buffer become NUL, and afterwards [has_commands_queued()] is
    true exactly when the ring is not empty or the ROM pointer is not
    null. *)
Theorem inject_empty (gcode : list byte) (q : GCodeQueue.t) :
  head gcode = Some CString.NUL ->
  length (GCodeQueue.injected_commands q) = 64%nat ->
  exists q',
    GCodeQueue.inject gcode q = Some (tt, q')
    /\ take 63 (GCodeQueue.injected_commands q') = replicate 63 CString.NUL
    /\ ~ GCodeQueue.scratch_pending q'
    /\ (GCodeQueue.has_commands_queued q' = true <->
          RingBuffer.length (GCodeQueue.ring_buffer q) <> 0
          \/ GCodeQueue.injected_commands_P q <> None).
Proof.
  intros Hhd Hlen.
  assert (CString.terminated gcode) as Hg.
  { destruct gcode as [|c g]; [done|]. injection Hhd as ->.
    apply list_elem_of_here. }
  destruct (inject_defined gcode q Hg Hlen) as (b & -> & _ & _ & _ & Htake).
  rewrite chars_head_nul in Htake by done. simpl in Htake.
  assert (b !! 0%nat = Some CString.NUL) as Hb0.
  { rewrite <- (lookup_take_lt b 63 0) by lia. by rewrite Htake. }
  assert (~ GCodeQueue.scratch_pending (GCodeQueue.set_injected_commands b q))
    as Hnp.
  { intros (c & Hc & Hne). simpl in Hc. congruence. }
  eexists. split; [done|]. split; [exact Htake|]. split; [exact Hnp|].
  rewrite has_commands_queued_spec. simpl. tauto.
Qed.

Lemma inject_empty_witness :
  exists q',
    GCodeQueue.inject Cases.empty_string
      (GCodeQueue.set_injected_commands (Examples.G28 ++ Examples.zeroed 60)
         Examples.queue0)
    = Some (tt, q')
    /\ take 63 (GCodeQueue.injected_commands q') = replicate 63 CString.NUL
    /\ GCodeQueue.has_commands_queued q' = false.
Proof.
  destruct (inject_empty Cases.empty_string
              (GCodeQueue.set_injected_commands
                 (Examples.G28 ++ Examples.zeroed 60) Examples.queue0))
    as (q' & Hq' & Htake & _ & Hiff).
  - reflexivity.
  - reflexivity.
  - exists q'. split; [exact Hq'|]. split; [exact Htake|].
    apply not_true_iff_false. rewrite Hiff. simpl.
    intros [?|?]; congruence.
Defined.

(** X11: [inject] never writes the terminator itself.  If byte 63 of the
    buffer is not NUL and [gcode] has 63 characters or more, no byte of the
    buffer is NUL after the call: the buffer holds no terminated string. *)
Theorem inject_unterminated (gcode : list byte) (c : byte) (q : GCodeQueue.t) :
  CString.terminated gcode ->
  length (GCodeQueue.injected_commands q) = 64%nat ->
  GCodeQueue.injected_commands q !! 63%nat = Some c -> c <> CString.NUL ->
  (63 <= CString.strlen gcode)%nat ->
  exists q',
    GCodeQueue.inject gcode q = Some (tt, q')
    /\ ~ CString.terminated (GCodeQueue.injected_commands q').
Proof.
  intros Hg Hlen Hlast Hc Hlong.
  destruct (inject_defined gcode q Hg Hlen)
    as (b & -> & _ & Hblen & Hb63 & Htake).
  eexists. split; [done|]. simpl. unfold CString.terminated.
  intros [i Hi]%list_elem_of_lookup.
  pose proof (lookup_lt_Some _ _ _ Hi) as Hlt.
  destruct (decide (i < 63)%nat) as [Hi63|Hi63].
  - rewrite <- (lookup_take_lt b 63 i) in Hi by done.
    rewrite Htake, take_app_le in Hi by (unfold CString.strlen in Hlong; lia).
    apply list_elem_of_lookup_2 in Hi.
    by apply (take_no_nul 63 _ (chars_no_nul gcode)).
  - assert (i = 63%nat) as -> by lia. congruence.
Qed.

Lemma inject_unterminated_witness :
  exists q',
    GCodeQueue.inject Examples.long_gcode Cases.queue_dirty = Some (tt, q')
    /\ ~ CString.terminated (GCodeQueue.injected_commands q').
Proof.
  apply (inject_unterminated Examples.long_gcode x47 Cases.queue_dirty).
  - apply (list_elem_of_lookup_2 _ 70). reflexivity.
  - reflexivity.
  - reflexivity.
  - discriminate.
  - vm_compute. lia.
Defined.

(** X12: the two injectors and [clear()] do not interfere: [inject] gives
    the same buffer, and fails in the same cases, whether [inject_P] or
    [clear()] ran before it or runs after it; and [inject_P] and [clear()]
    can be swapped. *)
Theorem injectors_independent
    (p : option (list byte)) (gcode : list byte) (q : GCodeQueue.t) :
  M.exec (GCodeQueue.inject gcode) (GCodeQueue.inject_P p q)
  = GCodeQueue.inject_P p <$> M.exec (GCodeQueue.inject gcode) q
  /\ M.exec (GCodeQueue.inject gcode) (GCodeQueue.clear q)
     = GCodeQueue.clear <$> M.exec (GCodeQueue.inject gcode) q
  /\ GCodeQueue.inject_P p (GCodeQueue.clear q)
     = GCodeQueue.clear (GCodeQueue.inject_P p q).
Proof.
  unfold GCodeQueue.inject. unfold_member. simpl.
  split; [|split; [|done]];
    by destruct (CString.strncpy (GCodeQueue.injected_commands q) gcode _).
Qed.

(** X13: right after [clear()], [has_commands_queued()] is true exactly
    when an injector is pending: [injected_commands_P] is not null or
    [injected_commands[0]] is not NUL. *)
Theorem clear_has_commands_queued (q : GCodeQueue.t) :
  GCodeQueue.has_commands_queued (GCodeQueue.clear q) = true
  <-> GCodeQueue.injected_commands_P q <> None
      \/ GCodeQueue.scratch_pending q.
Proof.
  rewrite has_commands_queued_spec. simpl.
  unfold GCodeQueue.scratch_pending. simpl. split; [|tauto].
  intros [?|?]; done.
Qed.

(** ** [set_current_line_number] and [command_port] *)

Lemma set_current_line_number_inv `{MarlinConfig} n q u q' :
  GCodeQueue.set_current_line_number n q = Some (u, q') ->
  exists p st,
    RingBuffer.command_port (GCodeQueue.ring_buffer q) = Some p
    /\ array_get (GCodeQueue.serial_state q) p = Some st
    /\ q' = GCodeQueue.set_serial_state
              (<[Z.to_nat p := SerialState.set_last_N n st]>
                 (GCodeQueue.serial_state q)) q.
Proof.
  intros Hq.
  destruct (RingBuffer.command_port (GCodeQueue.ring_buffer q))
    as [p|] eqn:Hp; last first.
  { revert Hq. unfold GCodeQueue.set_current_line_number. unfold_member.
    by rewrite Hp. }
  destruct (array_get (GCodeQueue.serial_state q) p) as [st|] eqn:Hst;
    last first.
  { revert Hq. unfold GCodeQueue.set_current_line_number. unfold_member.
    by rewrite Hp, Hst. }
  rewrite (set_current_line_number_port n q p st Hp Hst) in Hq.
  injection Hq as _ <-. by exists p, st.
Qed.

(** X14: the last [set_current_line_number] wins.  If
    [set_current_line_number(n)] is defined, a following
    [set_current_line_number(m)] addresses the same port and leaves the
    queue exactly as [set_current_line_number(m)] alone would. *)
Theorem set_current_line_number_twice `{MarlinConfig}
    (n m : Z) (q q1 : GCodeQueue.t) :
  GCodeQueue.set_current_line_number n q = Some (tt, q1) ->
  RingBuffer.command_port (GCodeQueue.ring_buffer q1)
  = RingBuffer.command_port (GCodeQueue.ring_buffer q)
  /\ is_Some (GCodeQueue.set_current_line_number m q1)
  /\ GCodeQueue.set_current_line_number m q1
     = GCodeQueue.set_current_line_number m q.
Proof.
  intros (p & st & Hp & Hst & ->)%set_current_line_number_inv.
  pose proof (array_get_lt _ _ _ Hst) as Hlt.
  split; [done|].
  assert (array_get
            (<[Z.to_nat p := SerialState.set_last_N n st]>
               (GCodeQueue.serial_state q)) p
          = Some (SerialState.set_last_N n st)) as Hst1.
  { eapply array_get_set_eq, array_set_Some. done. }
  rewrite (set_current_line_number_port m _ p (SerialState.set_last_N n st))
    by done.
  rewrite (set_current_line_number_port m q p st) by done.
  split; [done|]. simpl. by rewrite list_insert_insert_eq.
Qed.

Lemma set_current_line_number_twice_witness :
  exists q1 q2,
    @GCodeQueue.set_current_line_number Examples.config 999 Examples.queue1
    = Some (tt, q1)
    /\ @GCodeQueue.set_current_line_number Examples.config 7 q1
       = Some (tt, q2)
    /\ @GCodeQueue.set_current_line_number Examples.config 7 Examples.queue1
       = Some (tt, q2).
Proof.
  destruct (@GCodeQueue.set_current_line_number Examples.config 999
              Examples.queue1) as [[[] q1]|] eqn:Hq1;
    [|vm_compute in Hq1; discriminate].
  destruct (@set_current_line_number_twice Examples.config 999 7
              Examples.queue1 q1 Hq1) as (_ & [[[] q2] Hq2] & Heq).
  exists q1, q2. split; [done|]. split; [done|]. by rewrite <- Heq.
Defined.

(** X15: a command that names no serial state.  Under [HAS_MULTI_SERIAL],
    when the command at the read position carries a port tag that is
    negative (such as -1, the default [serial_ind]) or not below the number
    of serial states, [set_current_line_number] indexes [serial_state]
    outside its bounds: it has no defined result. *)
Theorem set_current_line_number_out_of_bounds `{MarlinConfig}
    (n : Z) (q : GCodeQueue.t) (c : CommandLine.t) :
  HAS_MULTI_SERIAL = true ->
  array_get (RingBuffer.commands (GCodeQueue.ring_buffer q))
    (RingBuffer.index_r (GCodeQueue.ring_buffer q)) = Some c ->
  CommandLine.port c < 0
  \/ Z.of_nat (length (GCodeQueue.serial_state q)) <= CommandLine.port c ->
  RingBuffer.command_port (GCodeQueue.ring_buffer q)
  = Some (CommandLine.port c)
  /\ GCodeQueue.set_current_line_number n q = None.
Proof.
  intros Hflag Hc Hout.
  pose proof (command_port_slot _ _ Hc) as Hp. rewrite Hflag in Hp.
  split; [done|].
  destruct (GCodeQueue.set_current_line_number n q) as [[u q']|] eqn:Hq;
    [|done].
  apply set_current_line_number_inv in Hq as (p & st & Hp' & Hst & _).
  rewrite Hp in Hp'. injection Hp' as <-.
  apply array_get_lt in Hst. lia.
Qed.

Lemma set_current_line_number_out_of_bounds_witness :
  @RingBuffer.command_port Examples.config
    (GCodeQueue.ring_buffer Cases.queue_untagged) = Some (-1)
  /\ @GCodeQueue.set_current_line_number Examples.config 999
       Cases.queue_untagged = None.
Proof.
  apply (@set_current_line_number_out_of_bounds Examples.config 999
           Cases.queue_untagged
           (CommandLine.mk (Examples.M110 ++ Examples.zeroed 91) true (-1))).
  - reflexivity.
  - reflexivity.
  - left. simpl. lia.
Defined.

(** X16: without [HAS_MULTI_SERIAL], [command_port()] is 0 for every ring
    state, readable slot or not, and [set_current_line_number(n)] sets
    [last_N] of [serial_state[0]] whenever that entry exists, leaving its
    other fields alone. *)
Theorem set_current_line_number_single_serial `{MarlinConfig}
    (n : Z) (q : GCodeQueue.t) (st : SerialState.t) :
  HAS_MULTI_SERIAL = false ->
  GCodeQueue.serial_state q !! 0%nat = Some st ->
  RingBuffer.command_port (GCodeQueue.ring_buffer q) = Some 0
  /\ GCodeQueue.set_current_line_number n q
     = Some (tt, GCodeQueue.set_serial_state
                   (<[0%nat := SerialState.mk n (SerialState.count st)
                                 (SerialState.line_buffer st)
                                 (SerialState.input_state st)]>
                      (GCodeQueue.serial_state q)) q).
Proof.
  intros Hflag Hst.
  assert (RingBuffer.command_port (GCodeQueue.ring_buffer q) = Some 0) as Hp.
  { unfold RingBuffer.command_port. by rewrite Hflag. }
  split; [done|].
  by rewrite (set_current_line_number_port n q 0 st).
Qed.

Lemma set_current_line_number_single_serial_witness :
  let q := GCodeQueue.mk [Examples.serial0]
             (RingBuffer.mk 0 9 9 []) None (Examples.zeroed 64) in
  exists q',
    @GCodeQueue.set_current_line_number Cases.single_serial 5 q
    = Some (tt, q')
    /\ GCodeQueue.serial_state q'
       = [SerialState.mk 5 0 (Examples.zeroed 96) 0].
Proof.
  intros q.
  destruct (@set_current_line_number_single_serial Cases.single_serial 5 q
              Examples.serial0 eq_refl eq_refl) as [_ Hq'].
  eexists. split; [exact Hq'|]. reflexivity.
Defined.

(** ** The queued window under [advance_pos] and [clear] *)

(** X17: on a well-formed ring with [length > 0], [advance_pos] on
    [index_r] with [-1] removes exactly the first slot of the queued window
    [index_r, index_r + length) and keeps the others in order; the ring
    stays well-formed, and [peek_next_command()] then returns what was the
    second slot of the window. *)
Theorem advance_r_queued `{MarlinConfig} (rb : RingBuffer.t) :
  0 < BUFSIZE <= 255 -> RingBuffer.wf rb -> RingBuffer.length rb > 0 ->
  let rb' := RingBuffer.advance_pos RingBuffer.IndexR (-1) rb in
  RingBuffer.queued rb' = tail (RingBuffer.queued rb)
  /\ RingBuffer.wf rb'
  /\ (RingBuffer.length rb > 1 ->
      exists c,
        RingBuffer.queued rb !! 1%nat = Some (Some c)
        /\ RingBuffer.peek_next_command rb' = Some (c, rb')).
Proof.
  intros HB Hwf Hlen rb'. pose proof Hwf as [(Hr & Hmod & Hl) Hcs].
  assert (rb' = RingBuffer.mk (RingBuffer.length rb - 1)
                  ((RingBuffer.index_r rb + 1) mod BUFSIZE)
                  (RingBuffer.index_w rb) (RingBuffer.commands rb)) as Hrb'.
  { unfold rb'. by rewrite advance_r_fields by lia. }
  assert (RingBuffer.wf rb') as Hwf' by (rewrite Hrb'; by apply wf_pop).
  assert (RingBuffer.queued rb' = tail (RingBuffer.queued rb)) as Hq.
  { rewrite (queued_pop rb) by done. by rewrite Hrb'. }
  split; [done|]. split; [done|]. intros Hlen2.
  destruct (array_get_is_Some (RingBuffer.commands rb')
              (RingBuffer.index_r rb')) as [c Hc]; [by apply wf_index_r|].
  exists c. split; [|by apply peek_next_command_defined].
  rewrite <- Hc. rewrite <- lookup_tail, <- Hq, <- head_lookup.
  apply queued_head; [by destruct Hwf' as [[? _] _]|].
  rewrite Hrb'. simpl. lia.
Qed.

Lemma advance_r_queued_witness :
  let rb' := @RingBuffer.advance_pos Examples.config RingBuffer.IndexR (-1)
               Cases.ring_two in
  @RingBuffer.queued Examples.config rb' = [Some (Cases.slot x41 0)]
  /\ RingBuffer.peek_next_command rb' = Some (Cases.slot x41 0, rb').
Proof.
  intros rb'.
  destruct (@advance_r_queued Examples.config Cases.ring_two)
    as (Hq & _ & Hpeek).
  - simpl. lia.
  - repeat split; simpl; try lia; reflexivity.
  - simpl. lia.
  - fold rb' in Hq, Hpeek. split; [by rewrite Hq|].
    destruct Hpeek as (c & Hc & ->); [simpl; lia|].
    vm_compute in Hc. by injection Hc as <-.
Defined.

(** X18: on a well-formed ring with [length < BUFSIZE], [advance_pos] on
    [index_w] with [+1] extends the queued window by the slot at the old
    [index_w] and leaves the earlier slots, and so the command at the read
    position, where they were; the ring stays well-formed. *)
Theorem advance_w_queued `{MarlinConfig} (rb : RingBuffer.t) :
  0 < BUFSIZE <= 255 -> RingBuffer.wf rb -> RingBuffer.length rb < BUFSIZE ->
  let rb' := RingBuffer.advance_pos RingBuffer.IndexW 1 rb in
  RingBuffer.queued rb'
  = RingBuffer.queued rb
    ++ [array_get (RingBuffer.commands rb) (RingBuffer.index_w rb)]
  /\ RingBuffer.wf rb'
  /\ M.exec RingBuffer.peek_next_command rb' <> None
  /\ fst <$> RingBuffer.peek_next_command rb'
     = fst <$> RingBuffer.peek_next_command rb.
Proof.
  intros HB Hwf Hlen rb'. pose proof Hwf as [(Hr & Hmod & Hl) Hcs].
  pose proof (wf_index_w HB _ Hwf) as Hw.
  destruct (array_get_is_Some _ _ Hw) as [c Hc].
  assert (<[Z.to_nat (RingBuffer.index_w rb) := c]> (RingBuffer.commands rb)
          = RingBuffer.commands rb) as Hid.
  { apply list_insert_id. by apply array_get_Some in Hc as [_ ?]. }
  assert (rb' = RingBuffer.mk (RingBuffer.length rb + 1)
                  (RingBuffer.index_r rb)
                  ((RingBuffer.index_w rb + 1) mod BUFSIZE)
                  (<[Z.to_nat (RingBuffer.index_w rb) := c]>
                     (RingBuffer.commands rb))) as Hrb'.
  { unfold rb'. rewrite advance_w_fields by lia. by rewrite Hid. }
  split; [|split; [|split]].
  - rewrite Hrb', Hc. by apply queued_enqueue.
  - rewrite Hrb'. by apply wf_enqueue.
  - destruct (array_get_is_Some (RingBuffer.commands rb')
                (RingBuffer.index_r rb')) as [c' Hc'].
    { rewrite Hrb'. simpl. rewrite Hid. lia. }
    destruct (peek_next_command_defined rb' c' Hc') as [Hp _].
    unfold M.exec. by rewrite Hp.
  - unfold RingBuffer.peek_next_command. unfold_member.
    rewrite Hrb'. simpl. rewrite Hid.
    by destruct (array_get (RingBuffer.commands rb) (RingBuffer.index_r rb)).
Qed.

Lemma advance_w_queued_witness :
  let rb' := @RingBuffer.advance_pos Examples.config RingBuffer.IndexW 1
               Cases.ring_two in
  @RingBuffer.queued Examples.config rb'
  = [Some (Cases.slot x44 1); Some (Cases.slot x41 0);
     Some (Cases.slot x42 1)].
Proof.
  intros rb'.
  destruct (@advance_w_queued Examples.config Cases.ring_two)
    as (Hq & _).
  - simpl. lia.
  - repeat split; simpl; try lia; reflexivity.
  - simpl. lia.
  - fold rb' in Hq. by rewrite Hq.
Defined.

(** X19: [clear()] empties the queued window but does not wipe the slots:
    on a ring whose array is not empty, [peek_next_command()] right after
    [clear()] is not refused and returns slot 0 with the bytes it had
    before. *)
Theorem clear_keeps_slots `{MarlinConfig}
    (rb : RingBuffer.t) (c0 : CommandLine.t) :
  array_get (RingBuffer.commands rb) 0 = Some c0 ->
  RingBuffer.queued (RingBuffer.clear rb) = []
  /\ RingBuffer.empty (RingBuffer.clear rb) = true
  /\ RingBuffer.peek_next_command (RingBuffer.clear rb)
     = Some (c0, RingBuffer.clear rb)
  /\ RingBuffer.peek_next_command_string (RingBuffer.clear rb)
     = Some (CommandLine.buffer c0, RingBuffer.clear rb).
Proof.
  intros Hc0. split; [done|]. split; [done|].
  by apply peek_next_command_defined.
Qed.

Lemma clear_keeps_slots_witness :
  @RingBuffer.queued Examples.config (RingBuffer.clear Cases.ring_full) = []
  /\ RingBuffer.peek_next_command (RingBuffer.clear Cases.ring_full)
     = Some (Cases.slot x41 0, RingBuffer.clear Cases.ring_full).
Proof.
  destruct (@clear_keeps_slots Examples.config Cases.ring_full
              (Cases.slot x41 0) eq_refl) as (Hq & _ & Hp & _).
  split; [exact Hq | exact Hp].
Defined.
